(** * Dynamixel protocol utilities (DynamixelUtils.h)

    A shallow embedding of the protocol constants, of the three data
    structures and of the two error detection functions of
    [DynamixelUtils.h], followed by the properties established about them. *)

From Stdlib Require Import ZArith List Lia.
From Stdlib.Strings Require Import Byte.
From Stdlib.Floats Require Import SpecFloat.
From stdpp Require Import base option list gmap.

Open Scope Z_scope.

(** ** Machine integers

    Values of the C++ integer types are integers of [Z]; each conversion to a
    narrower type is written out.  [unsigned char] and [uint8_t] have 8 bits,
    [unsigned short] has 16 bits.  The width of [int] is left to the
    platform: it is the parameter [int_bits] of whatever uses an [int]. *)

Definition to_uchar (z : Z) : Z := z mod 2 ^ 8.
Definition to_ushort (z : Z) : Z := z mod 2 ^ 16.

Definition USHRT_MAX : Z := 2 ^ 16 - 1.
Definition INT_MAX (int_bits : Z) : Z := 2 ^ (int_bits - 1) - 1.
Definition INT_MIN (int_bits : Z) : Z := - 2 ^ (int_bits - 1).

(** Two's complement reduction of an integer to an [int] of [int_bits] bits:
    what the result of [+=] and [++] on an [int] is stored as. *)
Definition to_int (int_bits : Z) (z : Z) : Z :=
  (z + 2 ^ (int_bits - 1)) mod 2 ^ int_bits - 2 ^ (int_bits - 1).

(** The value of an [unsigned char]. *)
Definition byte_val (b : byte) : Z := Z.of_N (Byte.to_N b).

(** ** Buffers

    A [const unsigned char*] argument is the list of the bytes that the
    caller owns from that address on.  Reading outside of them has no defined
    result. *)
Definition load (packet : list byte) (i : Z) : option Z :=
  if i <? 0 then None else byte_val <$> packet !! Z.to_nat i.

(** [for (init; cond; incr) body] from the state that [init] leaves: while
    [cond] holds, one [round], the body followed by [incr].  A round without
    a defined result ends the loop, and so does the end of [fuel], which
    bounds the number of the evaluations of [cond]. *)
Fixpoint for_loop {St : Type} (fuel : nat) (cond : St -> bool)
    (round : St -> option St) (s : St) : option St :=
  match fuel with
  | O => None
  | S k => if cond s then s' ← round s; for_loop k cond round s' else Some s
  end.

(** [i < n] for an [int] [i] and an [unsigned short] [n].  An [int] wider
    than 16 bits holds every [unsigned short] and [n] is promoted to [int];
    otherwise both sides are converted to [unsigned int]. *)
Definition int_lt_ushort (int_bits : Z) (i n : Z) : bool :=
  if 16 <? int_bits then i <? n
  else i mod 2 ^ int_bits <? n mod 2 ^ int_bits.

(** ** Error detection functions *)

Definition crc_table : list Z :=
  [
    0x0000; 0x8005; 0x800F; 0x000A; 0x801B; 0x001E; 0x0014; 0x8011;
    0x8033; 0x0036; 0x003C; 0x8039; 0x0028; 0x802D; 0x8027; 0x0022;
    0x8063; 0x0066; 0x006C; 0x8069; 0x0078; 0x807D; 0x8077; 0x0072;
    0x0050; 0x8055; 0x805F; 0x005A; 0x804B; 0x004E; 0x0044; 0x8041;
    0x80C3; 0x00C6; 0x00CC; 0x80C9; 0x00D8; 0x80DD; 0x80D7; 0x00D2;
    0x00F0; 0x80F5; 0x80FF; 0x00FA; 0x80EB; 0x00EE; 0x00E4; 0x80E1;
    0x00A0; 0x80A5; 0x80AF; 0x00AA; 0x80BB; 0x00BE; 0x00B4; 0x80B1;
    0x8093; 0x0096; 0x009C; 0x8099; 0x0088; 0x808D; 0x8087; 0x0082;
    0x8183; 0x0186; 0x018C; 0x8189; 0x0198; 0x819D; 0x8197; 0x0192;
    0x01B0; 0x81B5; 0x81BF; 0x01BA; 0x81AB; 0x01AE; 0x01A4; 0x81A1;
    0x01E0; 0x81E5; 0x81EF; 0x01EA; 0x81FB; 0x01FE; 0x01F4; 0x81F1;
    0x81D3; 0x01D6; 0x01DC; 0x81D9; 0x01C8; 0x81CD; 0x81C7; 0x01C2;
    0x0140; 0x8145; 0x814F; 0x014A; 0x815B; 0x015E; 0x0154; 0x8151;
    0x8173; 0x0176; 0x017C; 0x8179; 0x0168; 0x816D; 0x8167; 0x0162;
    0x8123; 0x0126; 0x012C; 0x8129; 0x0138; 0x813D; 0x8137; 0x0132;
    0x0110; 0x8115; 0x811F; 0x011A; 0x810B; 0x010E; 0x0104; 0x8101;
    0x8303; 0x0306; 0x030C; 0x8309; 0x0318; 0x831D; 0x8317; 0x0312;
    0x0330; 0x8335; 0x833F; 0x033A; 0x832B; 0x032E; 0x0324; 0x8321;
    0x0360; 0x8365; 0x836F; 0x036A; 0x837B; 0x037E; 0x0374; 0x8371;
    0x8353; 0x0356; 0x035C; 0x8359; 0x0348; 0x834D; 0x8347; 0x0342;
    0x03C0; 0x83C5; 0x83CF; 0x03CA; 0x83DB; 0x03DE; 0x03D4; 0x83D1;
    0x83F3; 0x03F6; 0x03FC; 0x83F9; 0x03E8; 0x83ED; 0x83E7; 0x03E2;
    0x83A3; 0x03A6; 0x03AC; 0x83A9; 0x03B8; 0x83BD; 0x83B7; 0x03B2;
    0x0390; 0x8395; 0x839F; 0x039A; 0x838B; 0x038E; 0x0384; 0x8381;
    0x0280; 0x8285; 0x828F; 0x028A; 0x829B; 0x029E; 0x0294; 0x8291;
    0x82B3; 0x02B6; 0x02BC; 0x82B9; 0x02A8; 0x82AD; 0x82A7; 0x02A2;
    0x82E3; 0x02E6; 0x02EC; 0x82E9; 0x02F8; 0x82FD; 0x82F7; 0x02F2;
    0x02D0; 0x82D5; 0x82DF; 0x02DA; 0x82CB; 0x02CE; 0x02C4; 0x82C1;
    0x8243; 0x0246; 0x024C; 0x8249; 0x0258; 0x825D; 0x8257; 0x0252;
    0x0270; 0x8275; 0x827F; 0x027A; 0x826B; 0x026E; 0x0264; 0x8261;
    0x0220; 0x8225; 0x822F; 0x022A; 0x823B; 0x023E; 0x0234; 0x8231;
    0x8213; 0x0216; 0x021C; 0x8219; 0x0208; 0x820D; 0x8207; 0x0202
  ].

(** [crc_table[i]] *)
Definition crc_table_at (i : Z) : option Z :=
  if i <? 0 then None else crc_table !! Z.to_nat i.

(** One round of the loop of [v1Checksum] on the state [(i, tempSum)]:
    [tempSum += packet_to_check[i]] and then [i++], both on [int]. *)
Definition v1Checksum_round (int_bits : Z) (packet_to_check : list byte)
    (s : Z * Z) : option (Z * Z) :=
  let '(i, tempSum) := s in
  b ← load packet_to_check i;
  Some (to_int int_bits (i + 1), to_int int_bits (tempSum + b)).

(** [i < packet_size] on the state [(i, tempSum)]. *)
Definition v1Checksum_cond (int_bits : Z) (packet_size : Z) (s : Z * Z) : bool :=
  int_lt_ushort int_bits s.1 packet_size.

(** The counter goes up by one from 0: the condition is evaluated at most
    [packet_size + 1] times. *)
Definition v1Checksum (int_bits : Z) (packet_to_check : list byte)
    (packet_size : Z) : option Z :=
  '(_, tempSum) ← for_loop (S (Z.to_nat packet_size))
                    (v1Checksum_cond int_bits packet_size)
                    (v1Checksum_round int_bits packet_to_check) (0, 0);
  Some (to_uchar (Z.land (Z.lnot tempSum) 0xFF)).

(** One round of the loop of [crc_compute] on the state [(j, crc_accum)].
    [i], [j] and [crc_accum] are [unsigned short]: the shifts and the
    exclusive ors are computed on the promoted values and each assignment
    keeps the low 16 bits. *)
Definition crc_compute_round (packet_to_check : list byte)
    (s : Z * Z) : option (Z * Z) :=
  let '(j, crc_accum) := s in
  b ← load packet_to_check j;
  let i := to_ushort (Z.land (Z.lxor (Z.shiftr crc_accum 8) b) 0xFF) in
  t ← crc_table_at i;
  Some (to_ushort (j + 1), to_ushort (Z.lxor (Z.shiftl crc_accum 8) t)).

(** [j < packet_size] on the state [(j, crc_accum)], both sides
    [unsigned short]. *)
Definition crc_compute_cond (packet_size : Z) (s : Z * Z) : bool :=
  s.1 <? packet_size.

Definition crc_compute (packet_to_check : list byte) (packet_size : Z) : option Z :=
  '(_, crc_accum) ← for_loop (S (Z.to_nat packet_size))
                      (crc_compute_cond packet_size)
                      (crc_compute_round packet_to_check) (0, 0);
  Some crc_accum.

(** ** Protocol v2 magic values *)

Inductive dynamixelV2 : Set :=
  | minPacketLenght
  | minInstructionLength
  | minResponseLength
  | writeInstruction
  | readInstruction
  | statusInstruction
  | alertBit
  | lengthLSBPos
  | lengthMSBPos
  | instructionPos
  | responseParameterStart.

#[global] Instance dynamixelV2_eq_dec : EqDecision dynamixelV2.
Proof. solve_decision. Defined.

(** The enumerators in the order of the declaration, each with its
    initializer when it has one. *)
Definition dynamixelV2_decl : list (dynamixelV2 * option Z) :=
  [ (minPacketLenght, Some 12);
    (minInstructionLength, Some 5);
    (minResponseLength, Some 5);
    (writeInstruction, Some 0x03);
    (readInstruction, None);
    (statusInstruction, Some 0x55);
    (alertBit, Some 128);
    (lengthLSBPos, Some 5);
    (lengthMSBPos, Some 6);
    (instructionPos, Some 7);
    (responseParameterStart, Some 8) ].

(** The values of the enumerators of an [enum]: an enumerator without
    initializer is one more than the enumerator before it, and 0 when it is
    the first. *)
Fixpoint enum_values {E : Type} (next : Z) (decl : list (E * option Z)) : list (E * Z) :=
  match decl with
  | [] => []
  | (e, init) :: rest =>
      let v := default next init in (e, v) :: enum_values (v + 1) rest
  end.

Fixpoint enum_lookup {E : Type} `{EqDecision E} (e : E) (vals : list (E * Z)) : option Z :=
  match vals with
  | [] => None
  | (e', v) :: rest => if decide (e = e') then Some v else enum_lookup e rest
  end.

Definition dynamixelV2_value (e : dynamixelV2) : option Z :=
  enum_lookup e (enum_values 0 dynamixelV2_decl).

Definition v1Header : list byte := [xff; xff].
Definition v2Header : list byte := [xff; xff; xfd; x00].

(** ** Data structures

    An object lives at a location; a reference member holds the location of
    the object it is bound to, and a pointer member the location of the array
    it points to.  A [float] is kept as the value it denotes. *)

Definition loc : Set := Z.
Definition nullptr : loc := 0.
Definition float : Set := spec_float.

(** A value that a member can hold. *)
Inductive value : Set :=
  | VInt (n : Z)
  | VRef (l : loc)
  | VFloat (x : float).

Module DynamixelAccessData.

Record t : Set := mk {
  address : list Z;     (* const uint8_t address[2] *)
  length : Z            (* const uint8_t length *)
}.

(** [DynamixelAccessData(addressLSB, addressMSB, size)]: each argument is
    converted to the [uint8_t] of its parameter. *)
Definition construct (addressLSB addressMSB size : Z) : t :=
  {| address := [to_uchar addressLSB; to_uchar addressMSB];
     length := to_uchar size |}.

Inductive member : Set := m_address (k : nat) | m_length.

(** Whether the declaration of the member is [const]. *)
Definition declared_const (f : member) : bool :=
  match f with
  | m_address _ => true
  | m_length => true
  end.

Definition get (f : member) (d : t) : option value :=
  match f with
  | m_address k => VInt <$> address d !! k
  | m_length => Some (VInt (length d))
  end.

(** [d.f = v] as a statement of a program: refused when the member is
    declared [const], a store into the member otherwise. *)
Definition assign (f : member) (v : value) (d : t) : option t :=
  if declared_const f then None
  else match f, v with
       | m_address k, VInt n =>
           if decide (k < 2)%nat
           then Some {| address := <[k:=to_uchar n]> (address d); length := length d |}
           else None
       | m_length, VInt n => Some {| address := address d; length := to_uchar n |}
       | _, _ => None
       end.

End DynamixelAccessData.

Module DynamixelMotorData.

Record t : Set := mk {
  motorID : Z;              (* uint8_t motorID *)
  id : loc;                 (* const DynamixelAccessData& *)
  led : loc;
  torqueEnable : loc;
  currentTorque : loc;
  goalAngle : loc;
  currentAngle : loc;
  goalVelocity : loc;
  currentVelocity : loc;
  valueToTorque : float;    (* const float *)
  valueToAngle : float;
  valueToVelocity : float
}.

(** The constructor, which converts [newID] to the [uint8_t] of its
    parameter and binds each reference to the object at the location it
    receives. *)
Definition construct (newID : Z)
    (idAccess ledAccess torqueEnAccess currentTorqueAccess : loc)
    (goalAngleAccess currentAngleAccess goalVelocityAccess currentVelocityAccess : loc)
    (torqueConvertFactor angleConvertFactor velocityConvertFactor : float) : t :=
  {| motorID := to_uchar newID; id := idAccess; led := ledAccess;
     torqueEnable := torqueEnAccess; currentTorque := currentTorqueAccess;
     goalAngle := goalAngleAccess; currentAngle := currentAngleAccess;
     goalVelocity := goalVelocityAccess; currentVelocity := currentVelocityAccess;
     valueToTorque := torqueConvertFactor; valueToAngle := angleConvertFactor;
     valueToVelocity := velocityConvertFactor |}.

Inductive member : Set :=
  | m_motorID
  | m_id | m_led | m_torqueEnable | m_currentTorque
  | m_goalAngle | m_currentAngle | m_goalVelocity | m_currentVelocity
  | m_valueToTorque | m_valueToAngle | m_valueToVelocity.

(** Whether the member is fixed by its declaration: [const float], or a
    reference, which stays bound to the same object and is a reference to
    [const]. *)
Definition declared_const (f : member) : bool :=
  match f with
  | m_motorID => false
  | _ => true
  end.

Definition get (f : member) (m : t) : value :=
  match f with
  | m_motorID => VInt (motorID m)
  | m_id => VRef (id m)
  | m_led => VRef (led m)
  | m_torqueEnable => VRef (torqueEnable m)
  | m_currentTorque => VRef (currentTorque m)
  | m_goalAngle => VRef (goalAngle m)
  | m_currentAngle => VRef (currentAngle m)
  | m_goalVelocity => VRef (goalVelocity m)
  | m_currentVelocity => VRef (currentVelocity m)
  | m_valueToTorque => VFloat (valueToTorque m)
  | m_valueToAngle => VFloat (valueToAngle m)
  | m_valueToVelocity => VFloat (valueToVelocity m)
  end.

(** The eight descriptors that the object references. *)
Definition descriptors (m : t) : list loc :=
  [id m; led m; torqueEnable m; currentTorque m;
   goalAngle m; currentAngle m; goalVelocity m; currentVelocity m].

(** [m.motorID = v], with [v] converted to the [uint8_t] of the member. *)
Definition set_motorID (v : Z) (m : t) : t :=
  {| motorID := to_uchar v; id := id m; led := led m;
     torqueEnable := torqueEnable m; currentTorque := currentTorque m;
     goalAngle := goalAngle m; currentAngle := currentAngle m;
     goalVelocity := goalVelocity m; currentVelocity := currentVelocity m;
     valueToTorque := valueToTorque m; valueToAngle := valueToAngle m;
     valueToVelocity := valueToVelocity m |}.

(** [m.f = v] as a statement of a program: refused when the member is
    fixed by its declaration, a store into the member otherwise. *)
Definition assign (f : member) (v : value) (m : t) : option t :=
  if declared_const f then None
  else match f, v with
       | m_motorID, VInt n => Some (set_motorID n m)
       | _, _ => None
       end.

End DynamixelMotorData.

(** The arrays of the free store, each at the location [new[]] gave it. *)
Abbreviation free_store := (gmap loc (list byte)).

(** How the construction of an object ends: with the object, or with an
    error thrown on the way. *)
Inductive construction_error : Set := invalid_frame_size.

Inductive construction (A : Type) : Type :=
  | Constructed (a : A)
  | Thrown (e : construction_error).

Arguments Constructed {A} a.
Arguments Thrown {A} e.

Module DynamixelPacket.

Record t : Set := mk {
  packet : loc;          (* const unsigned char* packet *)
  packetSize : Z;        (* const uint8_t packetSize *)
  responseSize : Z       (* const uint8_t responseSize *)
}.

(** [DynamixelPacket(packet, length)]: the member initializers and an empty
    body; [length] is converted to the [uint8_t] of its parameter. *)
Definition construct (packet : loc) (length : Z) : construction t :=
  Constructed {| packet := packet; packetSize := to_uchar length; responseSize := 0 |}.

(** [DynamixelPacket(packet, length, responseLength)] *)
Definition construct_response (packet : loc) (length responseLength : Z) : construction t :=
  Constructed {| packet := packet; packetSize := to_uchar length;
                 responseSize := to_uchar responseLength |}.

(** The struct declares a destructor and neither a copy constructor nor a
    move constructor, so [DynamixelPacket b(a)] is the member by member
    copy that the language supplies. *)
Definition copy (a : t) : t :=
  {| packet := packet a; packetSize := packetSize a; responseSize := responseSize a |}.

(** [delete[] packet]: nothing for the null pointer, the release of the
    array when [packet] is an array of the free store, and no defined
    result otherwise. *)
Definition delete_array (p : loc) (h : free_store) : option free_store :=
  if decide (p = nullptr) then Some h
  else match h !! p with
       | Some _ => Some (delete p h)
       | None => None
       end.

(** [~DynamixelPacket()] *)
Definition destroy (a : t) (h : free_store) : option free_store :=
  delete_array (packet a) h.

End DynamixelPacket.

(** ** Programs over descriptors and motor data

    The state of a program is the set of the objects constructed so far.  A
    statement constructs an object at a location that holds none, or assigns
    to a member of an object.  Reading a member is [get] on the object and
    leaves the state as it is. *)

Record memory : Type := Memory {
  accessData : gmap loc DynamixelAccessData.t;
  motorData : gmap loc DynamixelMotorData.t
}.

Inductive statement : Set :=
  | NewAccessData (l : loc) (addressLSB addressMSB size : Z)
  | NewMotorData (l : loc) (newID : Z)
      (idAccess ledAccess torqueEnAccess currentTorqueAccess : loc)
      (goalAngleAccess currentAngleAccess goalVelocityAccess currentVelocityAccess : loc)
      (torqueConvertFactor angleConvertFactor velocityConvertFactor : float)
  | AssignAccessData (l : loc) (f : DynamixelAccessData.member) (v : value)
  | AssignMotorData (l : loc) (f : DynamixelMotorData.member) (v : value).

Definition unused (l : loc) (σ : memory) : bool :=
  bool_decide (accessData σ !! l = None ∧ motorData σ !! l = None).

Definition exec (s : statement) (σ : memory) : option memory :=
  match s with
  | NewAccessData l addressLSB addressMSB size =>
      if unused l σ
      then Some {| accessData :=
                     <[l := DynamixelAccessData.construct addressLSB addressMSB size]>
                       (accessData σ);
                   motorData := motorData σ |}
      else None
  | NewMotorData l newID a b c d e f g h x y z =>
      let m := DynamixelMotorData.construct newID a b c d e f g h x y z in
      if unused l σ
         && forallb (λ r, bool_decide (is_Some (accessData σ !! r)))
                    (DynamixelMotorData.descriptors m)
      then Some {| accessData := accessData σ; motorData := <[l := m]> (motorData σ) |}
      else None
  | AssignAccessData l f v =>
      d ← accessData σ !! l;
      d' ← DynamixelAccessData.assign f v d;
      Some {| accessData := <[l := d']> (accessData σ); motorData := motorData σ |}
  | AssignMotorData l f v =>
      m ← motorData σ !! l;
      m' ← DynamixelMotorData.assign f v m;
      Some {| accessData := accessData σ; motorData := <[l := m']> (motorData σ) |}
  end.

Fixpoint run (prog : list statement) (σ : memory) : option memory :=
  match prog with
  | [] => Some σ
  | s :: rest => σ' ← exec s σ; run rest σ'
  end.

(** ** The checksums as the specification words them

    These definitions follow the wording of the specification, not the
    source: they are what the functions above are compared with. *)

(** The sum of the bytes of a sequence. *)
Definition byte_sum (s : list byte) : Z :=
  foldr (λ b acc, byte_val b + acc) 0 s.

(** The one's complement of the low byte of a sum. *)
Definition ones_complement_byte (sum : Z) : Z := Z.land (Z.lnot sum) 0xFF.

(** The recurrence of the table driven CRC on a sequence of bytes, from the
    accumulator [acc] on. *)
Definition crc_recurrence_step (acc : Z) (b : byte) : Z :=
  let i := Z.land (Z.lxor (Z.shiftr acc 8) (byte_val b)) 0xFF in
  (Z.lxor (Z.shiftl acc 8) (nth (Z.to_nat i) crc_table 0)) mod 2 ^ 16.

Definition crc_recurrence (s : list byte) : Z :=
  fold_left crc_recurrence_step s 0.

(** One round of the bitwise CRC-16 on a 16-bit value, most significant bit
    first: shift left by one and exclusive or with the polynomial when the bit
    shifted out was 1. *)
Definition crc16_shift (poly : Z) (v : Z) : Z :=
  let shifted := (Z.shiftl v 1) mod 2 ^ 16 in
  if Z.testbit v 15 then Z.lxor shifted poly else shifted.

(** The table entry generated for the index [i]: eight rounds from [i << 8]. *)
Definition crc16_entry (poly : Z) (i : Z) : Z :=
  Nat.iter 8 (crc16_shift poly) ((Z.shiftl i 8) mod 2 ^ 16).

(** ** A program on one descriptor and one motor

    A descriptor at the location 1 (two bytes at the address [1E 00]), a
    motor with the identifier 1 at the location 2 whose eight references are
    bound to this descriptor, and a later change of the identifier to 7. *)

Definition example_motor : DynamixelMotorData.t :=
  DynamixelMotorData.construct 1 1 1 1 1 1 1 1 1
    (S754_finite false 1 0) (S754_finite false 1 0) (S754_finite false 1 0).

Definition example_program : list statement :=
  [ NewMotorData 2 1 1 1 1 1 1 1 1 1
      (S754_finite false 1 0) (S754_finite false 1 0) (S754_finite false 1 0);
    AssignMotorData 2 DynamixelMotorData.m_motorID (VInt 7) ].

Definition example_memory : memory :=
  {| accessData := {[ 1 := DynamixelAccessData.construct 0x1E 0x00 2 ]};
     motorData := ∅ |}.

Definition example_memory_motor : memory :=
  {| accessData := {[ 1 := DynamixelAccessData.construct 0x1E 0x00 2 ]};
     motorData := {[ 2 := example_motor ]} |}.

Definition example_memory_end : memory :=
  {| accessData := {[ 1 := DynamixelAccessData.construct 0x1E 0x00 2 ]};
     motorData := {[ 2 := DynamixelMotorData.set_motorID 7 example_motor ]} |}.

(** The bytewise exclusive or, in which the effect of flipped bits on a
    checksum is stated. *)
Definition byte_xor (x y : byte) : byte :=
  default x00 (Byte.of_N (N.lxor (Byte.to_N x) (Byte.to_N y))).

(** The index of the table entry that a round of the recurrence looks up. *)
Definition crc_round_index (acc : Z) (b : byte) : Z :=
  Z.land (Z.lxor (Z.shiftr acc 8) (byte_val b)) 0xFF.

(** * Properties *)

(** ** Machine integers *)

Lemma to_uchar_byte (z : Z) : 0 <= z <= 255 -> to_uchar z = z.
Proof. intros Hz. unfold to_uchar. apply Z.mod_small. change (2 ^ 8) with 256. lia. Qed.

Lemma byte_val_range (b : byte) : 0 <= byte_val b <= 255.
Proof.
  unfold byte_val. pose proof (Byte.to_N_bounded b). lia.
Qed.

Lemma to_int_small (int_bits z : Z) :
  1 <= int_bits -> INT_MIN int_bits <= z <= INT_MAX int_bits -> to_int int_bits z = z.
Proof.
  unfold to_int, INT_MIN, INT_MAX. intros Hw Hz.
  assert (H2 : 2 ^ int_bits = 2 * 2 ^ (int_bits - 1)).
  { rewrite <- Z.pow_succ_r by lia. f_equal. lia. }
  rewrite Z.mod_small; lia.
Qed.

(** Reducing to [int] keeps the low byte. *)
Lemma to_int_low_byte (int_bits z : Z) :
  8 <= int_bits -> to_int int_bits z mod 2 ^ 8 = z mod 2 ^ 8.
Proof.
  intros Hw. unfold to_int.
  assert (H2 : 2 ^ int_bits = 2 ^ 8 * 2 ^ (int_bits - 8)).
  { rewrite <- Z.pow_add_r by lia. f_equal. lia. }
  assert (Hp : 0 < 2 ^ (int_bits - 8)) by (apply Z.pow_pos_nonneg; lia).
  set (h := 2 ^ (int_bits - 1)).
  rewrite (Z.mod_eq (z + h) (2 ^ int_bits)) by lia.
  rewrite H2.
  replace (z + h - 2 ^ 8 * 2 ^ (int_bits - 8) * ((z + h) / (2 ^ 8 * 2 ^ (int_bits - 8))) - h)
    with (z + (- (2 ^ (int_bits - 8) * ((z + h) / (2 ^ 8 * 2 ^ (int_bits - 8))))) * 2 ^ 8) by ring.
  apply Z.mod_add. lia.
Qed.

Lemma land_0xFF (x : Z) : Z.land x 0xFF = x mod 256.
Proof. apply (Z.land_ones x 8). lia. Qed.

Lemma ones_complement_byte_eq (sum : Z) :
  ones_complement_byte sum = 255 - sum mod 256.
Proof.
  unfold ones_complement_byte.
  rewrite land_0xFF, Z.lnot_eq_pred_opp.
  replace (- sum - 1) with (255 - sum mod 256 + (- (sum / 256) - 1) * 256)
    by (pose proof (Z.div_mod sum 256 ltac:(lia)); lia).
  rewrite Z.mod_add by lia.
  apply Z.mod_small. pose proof (Z.mod_pos_bound sum 256). lia.
Qed.

Lemma ones_complement_byte_mod (a b : Z) :
  a mod 2 ^ 8 = b mod 2 ^ 8 -> ones_complement_byte a = ones_complement_byte b.
Proof.
  intros H. rewrite !ones_complement_byte_eq. change (2 ^ 8) with 256 in H. lia.
Qed.

Lemma ones_complement_byte_range (sum : Z) : 0 <= ones_complement_byte sum <= 255.
Proof.
  rewrite ones_complement_byte_eq. pose proof (Z.mod_pos_bound sum 256). lia.
Qed.

Lemma byte_sum_nonneg (s : list byte) : 0 <= byte_sum s.
Proof.
  induction s as [|b s IH]; simpl; [lia|]. pose proof (byte_val_range b). lia.
Qed.

Lemma byte_sum_app (s t : list byte) : byte_sum (s ++ t) = byte_sum s + byte_sum t.
Proof.
  induction s as [|b s IH]; simpl; [reflexivity|]. rewrite IH. lia.
Qed.

(** Every value of an [unsigned char] is the value of some byte. *)
Lemma byte_of_val (z : Z) : 0 <= z <= 255 -> ∃ b : byte, byte_val b = z.
Proof.
  intros Hz. destruct (Byte.of_N (Z.to_N z)) as [b|] eqn:Hb.
  - exists b. unfold byte_val. apply Byte.to_of_N in Hb. rewrite Hb. lia.
  - apply Byte.of_N_None_iff in Hb. lia.
Qed.

(** ** Buffers *)

Lemma load_in_range (packet : list byte) (i : nat) (b : byte) :
  packet !! i = Some b -> load packet (Z.of_nat i) = Some (byte_val b).
Proof.
  intros H. unfold load.
  destruct (Z.ltb_spec (Z.of_nat i) 0) as [?|_]; [lia|].
  rewrite Nat2Z.id, H. reflexivity.
Qed.

Lemma crc_table_length : length crc_table = 256%nat.
Proof. reflexivity. Qed.

Lemma crc_table_at_byte (x : Z) :
  crc_table_at (to_ushort (Z.land x 0xFF))
  = Some (nth (Z.to_nat (Z.land x 0xFF)) crc_table 0).
Proof.
  assert (Hr : 0 <= Z.land x 0xFF < 256).
  { rewrite land_0xFF. apply Z.mod_pos_bound. lia. }
  unfold to_ushort. rewrite Z.mod_small by (change (2 ^ 16) with 65536; lia).
  unfold crc_table_at.
  destruct (Z.ltb_spec (Z.land x 0xFF) 0) as [?|_]; [lia|].
  rewrite nth_lookup.
  destruct (lookup_lt_is_Some_2 crc_table (Z.to_nat (Z.land x 0xFF))) as [t Ht].
  { rewrite crc_table_length. lia. }
  rewrite Ht. reflexivity.
Qed.

(** ** The loops of the error detection functions *)

Lemma for_loop_unfold {St : Type} (k : nat) (cond : St -> bool)
    (round : St -> option St) (s : St) :
  for_loop (S k) cond round s
  = if cond s then round s ≫= for_loop k cond round else Some s.
Proof. reflexivity. Qed.

Lemma for_loop_round {St : Type} (k : nat) (cond : St -> bool)
    (round : St -> option St) (s : St) :
  cond s = true ->
  for_loop (S k) cond round s = round s ≫= for_loop k cond round.
Proof. intros H. rewrite for_loop_unfold, H. reflexivity. Qed.

Lemma for_loop_exit {St : Type} (k : nat) (cond : St -> bool)
    (round : St -> option St) (s : St) :
  cond s = false ->
  for_loop (S k) cond round s = Some s.
Proof. intros H. rewrite for_loop_unfold, H. reflexivity. Qed.

#[local] Arguments for_loop : simpl never.

(** The comparison of the counter with the size is the comparison of their
    values as long as the counter has not wrapped. *)
Lemma int_lt_ushort_spec (int_bits i n : Z) :
  16 <= int_bits ->
  0 <= i <= INT_MAX int_bits ->
  0 <= n <= USHRT_MAX ->
  int_lt_ushort int_bits i n = (i <? n).
Proof.
  unfold int_lt_ushort, INT_MAX, USHRT_MAX. intros Hw Hi Hn.
  destruct (Z.ltb_spec 16 int_bits) as [_|Hle]; [reflexivity|].
  assert (int_bits = 16) as -> by lia.
  change (2 ^ (16 - 1)) with 32768 in Hi. change (2 ^ 16) with 65536 in *.
  rewrite !Z.mod_small by lia. reflexivity.
Qed.

Lemma v1Checksum_round_eq (int_bits : Z) (packet : list byte) (i tempSum : Z) :
  v1Checksum_round int_bits packet (i, tempSum)
  = load packet i ≫= λ b, Some (to_int int_bits (i + 1), to_int int_bits (tempSum + b)).
Proof. reflexivity. Qed.

Lemma crc_compute_round_eq (packet : list byte) (j crc_accum : Z) :
  crc_compute_round packet (j, crc_accum)
  = load packet j ≫= λ b,
      crc_table_at (to_ushort (Z.land (Z.lxor (Z.shiftr crc_accum 8) b) 0xFF)) ≫= λ t,
        Some (to_ushort (j + 1), to_ushort (Z.lxor (Z.shiftl crc_accum 8) t)).
Proof. reflexivity. Qed.

Section V1ChecksumLoop.

Variable int_bits : Z.
Hypothesis int_bits_min : 16 <= int_bits.
Variable packet : list byte.

Lemma INT_MIN_neg : INT_MIN int_bits < 0.
Proof.
  unfold INT_MIN.
  assert (0 < 2 ^ (int_bits - 1)) by (apply Z.pow_pos_nonneg; lia). lia.
Qed.

(** From the counter [i], [k] rounds before the size [n], the loop of
    [v1Checksum] ends with the counter [n]; its accumulator agrees on the low
    byte with the sum of the bytes read, and is that sum when the sum fits in
    an [int]. *)
Lemma v1Checksum_loop (n : nat) (k i : nat) (t : Z) :
  (i + k = n)%nat ->
  (n <= length packet)%nat ->
  Z.of_nat n <= USHRT_MAX ->
  Z.of_nat n <= INT_MAX int_bits ->
  ∃ t' : Z,
    for_loop (S k) (v1Checksum_cond int_bits (Z.of_nat n))
      (v1Checksum_round int_bits packet) (Z.of_nat i, t)
    = Some (Z.of_nat n, t')
    ∧ t' mod 2 ^ 8 = (t + byte_sum (take k (drop i packet))) mod 2 ^ 8
    ∧ (0 <= t -> t + byte_sum (take k (drop i packet)) <= INT_MAX int_bits ->
       t' = t + byte_sum (take k (drop i packet))).
Proof.
  intros Hk Hlen Hushort Hmax. revert i t Hk.
  assert (Hcond : ∀ (i : nat) (t : Z), (i <= n)%nat ->
            v1Checksum_cond int_bits (Z.of_nat n) (Z.of_nat i, t)
            = (Z.of_nat i <? Z.of_nat n)).
  { intros i t Hi. unfold v1Checksum_cond. simpl.
    apply int_lt_ushort_spec; lia. }
  induction k as [|k IH]; intros i t Hk.
  - exists t. rewrite for_loop_exit
      by (rewrite Hcond by lia; apply Z.ltb_ge; lia).
    simpl. rewrite Z.add_0_r.
    split; [do 3 f_equal; lia|]. split; [reflexivity | auto].
  - destruct (lookup_lt_is_Some_2 packet i) as [b Hb]; [lia|].
    pose proof INT_MIN_neg as Hmin.
    pose proof (byte_val_range b) as Hbr.
    rewrite for_loop_round by (rewrite Hcond by lia; apply Z.ltb_lt; lia).
    rewrite v1Checksum_round_eq, (load_in_range _ _ _ Hb). simpl.
    rewrite (to_int_small int_bits (Z.of_nat i + 1)) by lia.
    replace (Z.of_nat i + 1) with (Z.of_nat (S i)) by lia.
    destruct (IH (S i) (to_int int_bits (t + byte_val b))) as (t' & Hrun & Hlow & Hexact);
      [lia|].
    exists t'. split; [exact Hrun|]. rewrite (drop_S _ _ _ Hb). simpl.
    set (rest := byte_sum (take k (drop (S i) packet))) in *.
    split.
    + rewrite Hlow. rewrite Z.add_mod by lia.
      rewrite to_int_low_byte by lia.
      rewrite <- Z.add_mod by lia. f_equal. lia.
    + intros Ht Hfit.
      pose proof (byte_sum_nonneg (take k (drop (S i) packet))) as Hrest.
      fold rest in Hrest.
      assert (Hstep : to_int int_bits (t + byte_val b) = t + byte_val b)
        by (apply to_int_small; lia).
      rewrite Hexact; rewrite Hstep; lia.
Qed.

Lemma v1Checksum_take (n : nat) :
  (n <= length packet)%nat ->
  Z.of_nat n <= USHRT_MAX ->
  Z.of_nat n <= INT_MAX int_bits ->
  v1Checksum int_bits packet (Z.of_nat n)
  = Some (ones_complement_byte (byte_sum (take n packet))).
Proof.
  intros Hlen Hushort Hmax. unfold v1Checksum. rewrite Nat2Z.id.
  destruct (v1Checksum_loop n n 0%nat 0) as (t' & Hrun & Hlow & _); [lia ..|].
  change (Z.of_nat 0) with 0 in Hrun. rewrite Hrun. simpl.
  rewrite drop_0, Z.add_0_l in Hlow.
  fold (ones_complement_byte t').
  unfold to_uchar. rewrite Z.mod_small
    by (pose proof (ones_complement_byte_range t'); change (2 ^ 8) with 256; lia).
  f_equal. apply ones_complement_byte_mod. exact Hlow.
Qed.


Lemma v1Checksum_whole :
  Z.of_nat (length packet) <= USHRT_MAX ->
  Z.of_nat (length packet) <= INT_MAX int_bits ->
  v1Checksum int_bits packet (Z.of_nat (length packet))
  = Some (ones_complement_byte (byte_sum packet)).
Proof.
  intros Hushort Hmax. rewrite v1Checksum_take by lia. rewrite firstn_all. reflexivity.
Qed.

End V1ChecksumLoop.

(** From the counter [j], [k] rounds before the size [n], the loop of
    [crc_compute] ends with the counter [n] and has run the recurrence on the
    bytes read. *)
Lemma crc_compute_loop (packet : list byte) (n : nat) :
  (n <= length packet)%nat ->
  Z.of_nat n <= USHRT_MAX ->
  ∀ (k j : nat) (acc : Z),
    (j + k = n)%nat ->
    for_loop (S k) (crc_compute_cond (Z.of_nat n)) (crc_compute_round packet)
      (Z.of_nat j, acc)
    = Some (Z.of_nat n, fold_left crc_recurrence_step (take k (drop j packet)) acc).
Proof.
  intros Hlen Hmax. induction k as [|k IH]; intros j acc Hk.
  - rewrite for_loop_exit by (unfold crc_compute_cond; simpl; apply Z.ltb_ge; lia).
    simpl. do 3 f_equal. lia.
  - destruct (lookup_lt_is_Some_2 packet j) as [b Hb]; [lia|].
    rewrite for_loop_round by (unfold crc_compute_cond; simpl; apply Z.ltb_lt; lia).
    rewrite crc_compute_round_eq, (load_in_range _ _ _ Hb). simpl.
    rewrite crc_table_at_byte. simpl.
    unfold to_ushort at 1. unfold USHRT_MAX in Hmax.
    rewrite (Z.mod_small (Z.of_nat j + 1)) by lia.
    replace (Z.of_nat j + 1) with (Z.of_nat (S j)) by lia.
    rewrite IH by lia.
    rewrite (drop_S _ _ _ Hb). reflexivity.
Qed.

Lemma crc_compute_take (packet : list byte) (n : nat) :
  (n <= length packet)%nat ->
  Z.of_nat n <= USHRT_MAX ->
  crc_compute packet (Z.of_nat n) = Some (crc_recurrence (take n packet)).
Proof.
  intros Hlen Hmax. unfold crc_compute. rewrite Nat2Z.id.
  change 0 with (Z.of_nat 0) at 1.
  rewrite (crc_compute_loop packet n Hlen Hmax) by lia.
  simpl. rewrite drop_0. reflexivity.
Qed.

(** ** The CRC of protocol 2 *)

(** C1. For every buffer and every length [n] within it, [crc_compute]
    returns the result of the table driven recurrence on the bytes
    [buffer[0..n)]: the 16-bit accumulator starts at 0 and each byte [b] sets
    [i = ((accumulator >> 8) ^ b) & 0xFF] and then
    [accumulator = ((accumulator << 8) ^ crc_table[i])] cut to 16 bits. *)
Theorem crc_compute_is_table_recurrence (buffer : list byte) (n : Z) :
  0 <= n <= USHRT_MAX ->
  n <= Z.of_nat (length buffer) ->
  crc_compute buffer n = Some (crc_recurrence (take (Z.to_nat n) buffer)).
Proof.
  intros Hn Hlen.
  rewrite <- (Z2Nat.id n) at 1 by lia.
  apply crc_compute_take; lia.
Qed.

Lemma crc_compute_is_table_recurrence_witness :
  crc_compute [xff; xff; xfd; x00; x01; x00; x04; x02; x1e; x00; x00; x00] 10
  = Some (crc_recurrence
            (take (Z.to_nat 10)
               [xff; xff; xfd; x00; x01; x00; x04; x02; x1e; x00; x00; x00])).
Proof.
  apply crc_compute_is_table_recurrence; [unfold USHRT_MAX; lia | simpl; lia].
Defined.

(** The CRC of the two instruction packets that the protocol manual works
    out, a ping ([19 4E] on the wire) and a read ([1D 15]), and the checksum
    of the v1 ping of the motor 1. *)
Example crc_compute_ping :
  crc_compute [xff; xff; xfd; x00; x01; x03; x00; x01] 8 = Some 0x4E19.
Proof. reflexivity. Qed.

Example crc_compute_read :
  crc_compute [xff; xff; xfd; x00; x01; x07; x00; x02; x84; x00; x04; x00] 12
  = Some 0x151D.
Proof. reflexivity. Qed.

Example v1Checksum_ping : v1Checksum 32 [x01; x02; x01] 3 = Some 0xFB.
Proof. reflexivity. Qed.

(** C10. Every entry [crc_table[i]], [0 <= i <= 255], is the entry that the
    CRC-16 polynomial 0x8005 generates most significant bit first: from the
    16-bit value [i << 8], eight rounds of a shift left by one with an
    exclusive or with 0x8005 whenever the bit shifted out was 1. *)
Theorem crc_table_generated_by_0x8005 (i : Z) :
  0 <= i <= 255 ->
  crc_table_at i = Some (crc16_entry 0x8005 i).
Proof.
  intros Hi.
  assert (Hall : forallb (λ k, bool_decide
                                 (crc_table_at (Z.of_nat k)
                                  = Some (crc16_entry 0x8005 (Z.of_nat k))))
                         (seq 0 256) = true) by (vm_compute; reflexivity).
  rewrite forallb_forall in Hall.
  assert (Hin : In (Z.to_nat i) (seq 0 256)) by (apply in_seq; lia).
  apply Hall, bool_decide_eq_true_1 in Hin.
  rewrite Z2Nat.id in Hin by lia. exact Hin.
Qed.

Lemma crc_table_generated_by_0x8005_witness :
  crc_table_at 0x80 = Some (crc16_entry 0x8005 0x80).
Proof. apply crc_table_generated_by_0x8005; lia. Defined.

(** ** The checksum of protocol 1 *)

(** The claim C2 fails on the frame [FF FF 01 02 03]: its checksum is [FB],
    and the frame followed by [FB] sums to [FF] modulo 256, not to 0. *)
Lemma v1Checksum_appended_sum_is_not_zero :
  ¬ (∀ (s : list byte) (c : byte),
       v1Checksum 32 s (Z.of_nat (length s)) = Some (byte_val c) ->
       byte_sum (s ++ [c]) mod 256 = 0).
Proof.
  intros H.
  specialize (H [xff; xff; x01; x02; x03] xfb eq_refl).
  vm_compute in H. discriminate H.
Qed.

(** C2, amended. For every byte sequence [s] (of a length that the
    [unsigned short] size and the [int] counter can hold), [v1Checksum(s)] is
    [~sum(s) & 0xFF], and [s] followed by its checksum sums to 0xFF
    modulo 256. *)
Theorem v1Checksum_appended_sum_is_0xFF (int_bits : Z) (s : list byte) :
  16 <= int_bits ->
  Z.of_nat (length s) <= USHRT_MAX ->
  Z.of_nat (length s) <= INT_MAX int_bits ->
  ∃ c : byte,
    v1Checksum int_bits s (Z.of_nat (length s)) = Some (byte_val c)
    ∧ byte_val c = Z.land (Z.lnot (byte_sum s)) 0xFF
    ∧ byte_sum (s ++ [c]) mod 256 = 0xFF.
Proof.
  intros Hw Hushort Hmax.
  destruct (byte_of_val (ones_complement_byte (byte_sum s))) as [c Hc];
    [apply ones_complement_byte_range|].
  exists c. rewrite Hc. split; [apply v1Checksum_whole; assumption|].
  split; [reflexivity|].
  rewrite byte_sum_app. simpl. rewrite Hc, ones_complement_byte_eq.
  replace (byte_sum s + (255 - byte_sum s mod 256 + 0))
    with (255 + (byte_sum s / 256) * 256)
    by (pose proof (Z.div_mod (byte_sum s) 256 ltac:(lia)); lia).
  rewrite Z.mod_add by lia. reflexivity.
Qed.

Lemma v1Checksum_appended_sum_is_0xFF_witness :
  ∃ c : byte,
    v1Checksum 16 [xff; xff; x01; x02; x03]
      (Z.of_nat (length [xff; xff; x01; x02; x03])) = Some (byte_val c)
    ∧ byte_val c = Z.land (Z.lnot (byte_sum [xff; xff; x01; x02; x03])) 0xFF
    ∧ byte_sum ([xff; xff; x01; x02; x03] ++ [c]) mod 256 = 0xFF.
Proof.
  apply v1Checksum_appended_sum_is_0xFF; [lia | vm_compute; discriminate | vm_compute; discriminate].
Defined.

(** ** The counter of [v1Checksum] on a narrow [int] *)

Section V1ChecksumCounter.

Variable int_bits : Z.
Hypothesis int_bits_min : 16 <= int_bits.
Variable packet : list byte.


End V1ChecksumCounter.









(** ** Protocol constants *)

(** C4. The framing constants have the documented values: the v1 header is
    [FF FF] and the v2 header [FF FF FD 00]; the minimum v2 packet length is
    12 and the minimum v2 instruction and response lengths are 5; the write
    instruction is 0x03, the read instruction, the enumerator after it, is
    0x04, and the status instruction is 0x55; the alert bit is 0x80; the
    length is at the offsets 5 (low byte) and 6 (high byte), the instruction
    at 7 and the response parameters start at 8. *)
Theorem framing_constants :
  map byte_val v1Header = [0xFF; 0xFF]
  ∧ map byte_val v2Header = [0xFF; 0xFF; 0xFD; 0x00]
  ∧ dynamixelV2_value minPacketLenght = Some 12
  ∧ dynamixelV2_value minInstructionLength = Some 5
  ∧ dynamixelV2_value minResponseLength = Some 5
  ∧ dynamixelV2_value writeInstruction = Some 0x03
  ∧ dynamixelV2_value readInstruction = Some 0x04
  ∧ dynamixelV2_value readInstruction = (λ w, w + 1) <$> dynamixelV2_value writeInstruction
  ∧ dynamixelV2_value statusInstruction = Some 0x55
  ∧ dynamixelV2_value alertBit = Some 0x80
  ∧ dynamixelV2_value lengthLSBPos = Some 5
  ∧ dynamixelV2_value lengthMSBPos = Some 6
  ∧ dynamixelV2_value instructionPos = Some 7
  ∧ dynamixelV2_value responseParameterStart = Some 8.
Proof. repeat split. Qed.

(** ** Packets *)

(** The claim C3 fails for a packet of length 0, below the 12 bytes of the
    shortest v2 packet: the constructor returns the packet. *)
Lemma DynamixelPacket_short_frame_is_constructed :
  ¬ (∀ (packet : loc) (length minimum : Z),
       dynamixelV2_value minPacketLenght = Some minimum ->
       0 <= length < minimum ->
       DynamixelPacket.construct packet length = Thrown invalid_frame_size).
Proof.
  intros H. specialize (H 16 0 12 eq_refl ltac:(lia)). discriminate H.
Qed.

(** C3, amended. The construction of a [DynamixelPacket] never fails: for
    every pointer, every length that is a byte value, also one below the
    minimum length of a frame, and every response length that is a byte
    value, it gives the packet that holds this pointer, this length as
    [packetSize] and the response length, 0 when none is given, as
    [responseSize]. *)
Theorem DynamixelPacket_construction_never_fails
    (packet : loc) (length responseLength : Z) :
  0 <= length <= 255 ->
  0 <= responseLength <= 255 ->
  (∃ p : DynamixelPacket.t,
     DynamixelPacket.construct packet length = Constructed p
     ∧ DynamixelPacket.packet p = packet
     ∧ DynamixelPacket.packetSize p = length
     ∧ DynamixelPacket.responseSize p = 0)
  ∧ (∃ p : DynamixelPacket.t,
       DynamixelPacket.construct_response packet length responseLength = Constructed p
       ∧ DynamixelPacket.packet p = packet
       ∧ DynamixelPacket.packetSize p = length
       ∧ DynamixelPacket.responseSize p = responseLength).
Proof.
  intros Hlength Hresponse.
  split; eexists; (split; [reflexivity|]); simpl;
    rewrite ?to_uchar_byte by assumption; repeat split.
Qed.

Lemma DynamixelPacket_construction_never_fails_witness :
  (∃ p : DynamixelPacket.t,
     DynamixelPacket.construct 16 0 = Constructed p
     ∧ DynamixelPacket.packet p = 16
     ∧ DynamixelPacket.packetSize p = 0
     ∧ DynamixelPacket.responseSize p = 0)
  ∧ (∃ p : DynamixelPacket.t,
       DynamixelPacket.construct_response 16 0 255 = Constructed p
       ∧ DynamixelPacket.packet p = 16
       ∧ DynamixelPacket.packetSize p = 0
       ∧ DynamixelPacket.responseSize p = 255).
Proof. apply DynamixelPacket_construction_never_fails; lia. Defined.

(** The destructor of a packet that owns an array of the free store releases
    this array and leaves the others. *)
Lemma DynamixelPacket_destroy_releases (a : DynamixelPacket.t) (h : free_store) (buf : list byte) :
  DynamixelPacket.packet a ≠ nullptr ->
  h !! DynamixelPacket.packet a = Some buf ->
  DynamixelPacket.destroy a h = Some (delete (DynamixelPacket.packet a) h).
Proof.
  intros Hnull Hlive. unfold DynamixelPacket.destroy, DynamixelPacket.delete_array.
  destruct (decide (DynamixelPacket.packet a = nullptr)); [contradiction|].
  rewrite Hlive. reflexivity.
Qed.

(** A copy of a packet points to the array of the original, and once one of
    the two is destroyed the destructor of the other has no defined result. *)
Lemma DynamixelPacket_copy_is_released_twice (a : DynamixelPacket.t) (h : free_store) (buf : list byte) :
  DynamixelPacket.packet a ≠ nullptr ->
  h !! DynamixelPacket.packet a = Some buf ->
  DynamixelPacket.packet (DynamixelPacket.copy a) = DynamixelPacket.packet a
  ∧ (DynamixelPacket.destroy a h ≫= DynamixelPacket.destroy (DynamixelPacket.copy a)) = None.
Proof.
  intros Hnull Hlive. split; [reflexivity|].
  rewrite (DynamixelPacket_destroy_releases a h buf Hnull Hlive). simpl.
  unfold DynamixelPacket.destroy, DynamixelPacket.delete_array. simpl.
  destruct (decide (DynamixelPacket.packet a = nullptr)); [contradiction|].
  rewrite lookup_delete_eq. reflexivity.
Qed.

(** C8 on the code: a packet built on a 12 byte array at the location 16 and
    then copied.  The copy holds the same pointer, the destructor of the
    original releases the array, and the destructor of the copy then runs
    [delete[]] on a pointer that is no longer an array of the free store. *)
Theorem DynamixelPacket_copy_aliases_buffer :
  let h : free_store := {[ 16 := replicate 12 x00 ]} in
  ∃ a : DynamixelPacket.t,
    DynamixelPacket.construct 16 12 = Constructed a
    ∧ DynamixelPacket.packet (DynamixelPacket.copy a) = DynamixelPacket.packet a
    ∧ DynamixelPacket.destroy a h = Some ∅
    ∧ DynamixelPacket.destroy (DynamixelPacket.copy a) ∅ = None.
Proof.
  eexists. split; [reflexivity|]. split; [reflexivity|]. split.
  - unfold DynamixelPacket.destroy, DynamixelPacket.delete_array. simpl.
    rewrite lookup_singleton_eq. rewrite delete_singleton_eq. reflexivity.
  - reflexivity.
Qed.

(** ** Descriptors and motor data over the run of a program *)

Lemma unused_true (l : loc) (σ : memory) :
  unused l σ = true -> accessData σ !! l = None ∧ motorData σ !! l = None.
Proof. unfold unused. intros H. apply bool_decide_eq_true_1 in H. exact H. Qed.

(** No member of a descriptor can be assigned to. *)
Lemma DynamixelAccessData_assign_refused
    (f : DynamixelAccessData.member) (v : value) (d : DynamixelAccessData.t) :
  DynamixelAccessData.assign f v d = None.
Proof. destruct f; reflexivity. Qed.

(** An assignment to a member of a motor data object is an assignment to
    [motorID]. *)
Lemma DynamixelMotorData_assign_inv
    (f : DynamixelMotorData.member) (v : value) (m m' : DynamixelMotorData.t) :
  DynamixelMotorData.assign f v m = Some m' ->
  f = DynamixelMotorData.m_motorID
  ∧ ∃ n : Z, v = VInt n ∧ m' = DynamixelMotorData.set_motorID n m.
Proof.
  destruct f; simpl; try discriminate.
  destruct v; simpl; try discriminate.
  intros [= <-]. eauto.
Qed.

Lemma set_motorID_get (n : Z) (m : DynamixelMotorData.t) (f : DynamixelMotorData.member) :
  f ≠ DynamixelMotorData.m_motorID ->
  DynamixelMotorData.get f (DynamixelMotorData.set_motorID n m) = DynamixelMotorData.get f m.
Proof. destruct f; intros Hf; try reflexivity. contradiction. Qed.

(** A statement that ran has passed its guard and found the object it
    works on. *)
Ltac passed H :=
  match type of H with
  | (if ?c then _ else _) = Some _ => destruct c eqn:?; [simpl in H|discriminate H]
  | (?o ≫= _) = Some _ => destruct o eqn:?; [simpl in H|discriminate H]
  end.

(** A statement leaves every descriptor as it is. *)
Lemma exec_accessData (s : statement) (σ σ' : memory) (l : loc) (d : DynamixelAccessData.t) :
  exec s σ = Some σ' ->
  accessData σ !! l = Some d ->
  accessData σ' !! l = Some d.
Proof.
  intros Hexec Hd. destruct s as [l0 a0 a1 n | l0 newID a b c e f g h i x y z | l0 f v | l0 f v];
    simpl in Hexec; passed Hexec.
  - match goal with H : unused _ _ = true |- _ => apply unused_true in H as [Hfree _] end.
    injection Hexec as <-. simpl.
    rewrite lookup_insert_ne; [exact Hd|]. intros ->. congruence.
  - injection Hexec as <-. exact Hd.
  - rewrite DynamixelAccessData_assign_refused in Hexec. discriminate.
  - passed Hexec. injection Hexec as <-. exact Hd.
Qed.

Lemma run_accessData (prog : list statement) (σ σ' : memory) (l : loc) (d : DynamixelAccessData.t) :
  run prog σ = Some σ' ->
  accessData σ !! l = Some d ->
  accessData σ' !! l = Some d.
Proof.
  revert σ. induction prog as [|s rest IH]; intros σ Hrun Hd; simpl in Hrun.
  - injection Hrun as <-. exact Hd.
  - destruct (exec s σ) as [σ1|] eqn:Hexec; [|discriminate]. simpl in Hrun.
    apply (IH σ1 Hrun). exact (exec_accessData _ _ _ _ _ Hexec Hd).
Qed.

(** A statement changes a motor data object only when it is the assignment
    to the [motorID] of this object. *)
Lemma exec_motorData (s : statement) (σ σ' : memory) (l : loc) (m : DynamixelMotorData.t) :
  exec s σ = Some σ' ->
  motorData σ !! l = Some m ->
  motorData σ' !! l = Some m
  ∨ ∃ n : Z, s = AssignMotorData l DynamixelMotorData.m_motorID (VInt n)
             ∧ motorData σ' !! l = Some (DynamixelMotorData.set_motorID n m).
Proof.
  intros Hexec Hm. destruct s as [l0 a0 a1 n | l0 newID a b c e f g h i x y z | l0 f v | l0 f v];
    simpl in Hexec; passed Hexec.
  - injection Hexec as <-. left. exact Hm.
  - match goal with H : _ && _ = true |- _ => apply andb_true_iff in H as [Hun _] end.
    apply unused_true in Hun as [_ Hfree].
    injection Hexec as <-. left. simpl.
    rewrite lookup_insert_ne; [exact Hm|]. intros ->. congruence.
  - rewrite DynamixelAccessData_assign_refused in Hexec. discriminate.
  - passed Hexec. injection Hexec as <-. simpl.
    match goal with
    | H : DynamixelMotorData.assign _ _ _ = Some _ |- _ =>
        apply DynamixelMotorData_assign_inv in H as (-> & n & -> & ->)
    end.
    destruct (decide (l0 = l)) as [->|Hne].
    + simplify_eq. right. exists n. rewrite lookup_insert_eq. auto.
    + left. rewrite lookup_insert_ne by exact Hne. exact Hm.
Qed.

Lemma run_motorData (prog : list statement) (σ σ' : memory) (l : loc) (m : DynamixelMotorData.t) :
  run prog σ = Some σ' ->
  motorData σ !! l = Some m ->
  ∃ m' : DynamixelMotorData.t,
    motorData σ' !! l = Some m'
    ∧ (∀ f, f ≠ DynamixelMotorData.m_motorID ->
            DynamixelMotorData.get f m' = DynamixelMotorData.get f m)
    ∧ (DynamixelMotorData.motorID m' ≠ DynamixelMotorData.motorID m ->
       ∃ n : Z, In (AssignMotorData l DynamixelMotorData.m_motorID (VInt n)) prog).
Proof.
  revert σ m. induction prog as [|s rest IH]; intros σ m Hrun Hm; simpl in Hrun.
  - injection Hrun as <-. exists m. split; [exact Hm|]. split; [reflexivity|]. congruence.
  - destruct (exec s σ) as [σ1|] eqn:Hexec; [|discriminate]. simpl in Hrun.
    destruct (exec_motorData _ _ _ _ _ Hexec Hm) as [Hsame | (n & -> & Hset)].
    + destruct (IH σ1 m Hrun Hsame) as (m' & Hm' & Hget & Hid).
      exists m'. split; [exact Hm'|]. split; [exact Hget|].
      intros Hne. destruct (Hid Hne) as [n Hin]. exists n. right. exact Hin.
    + destruct (IH σ1 _ Hrun Hset) as (m' & Hm' & Hget & _).
      exists m'. split; [exact Hm'|]. split.
      * intros f Hf. rewrite (Hget f Hf). apply set_motorID_get. exact Hf.
      * intros _. exists n. left. reflexivity.
Qed.

(** The claim C5 fails for the descriptor built with the size 0: its length
    is 0. *)
Lemma DynamixelAccessData_length_can_be_zero :
  ¬ (∀ addressLSB addressMSB size : Z,
       0 <= size <= 255 ->
       1 <= DynamixelAccessData.length
              (DynamixelAccessData.construct addressLSB addressMSB size)).
Proof.
  intros H. specialize (H 0 0 0 ltac:(lia)). vm_compute in H. apply H. reflexivity.
Qed.

(** C5, amended. A constructed [DynamixelAccessData] holds the two address
    bytes and the size it was built with, whatever byte value the size is (0
    is accepted), and these three fields are fixed from then on: after any
    program the object is the same, so that a read of a field gives what it
    gave before. *)
Theorem DynamixelAccessData_fixed_after_construction
    (l : loc) (addressLSB addressMSB size : Z)
    (prog : list statement) (σ σ1 σ2 : memory) :
  0 <= addressLSB <= 255 ->
  0 <= addressMSB <= 255 ->
  0 <= size <= 255 ->
  exec (NewAccessData l addressLSB addressMSB size) σ = Some σ1 ->
  run prog σ1 = Some σ2 ->
  ∃ d : DynamixelAccessData.t,
    accessData σ1 !! l = Some d
    ∧ DynamixelAccessData.address d = [addressLSB; addressMSB]
    ∧ DynamixelAccessData.length d = size
    ∧ accessData σ2 !! l = Some d
    ∧ ∀ f, DynamixelAccessData.get f <$> accessData σ2 !! l
           = DynamixelAccessData.get f <$> accessData σ1 !! l.
Proof.
  intros HLSB HMSB Hsize Hnew Hrun. simpl in Hnew.
  destruct (unused l σ); [|discriminate]. injection Hnew as <-.
  exists (DynamixelAccessData.construct addressLSB addressMSB size).
  assert (H1 : accessData
                 {| accessData :=
                      <[l := DynamixelAccessData.construct addressLSB addressMSB size]>
                        (accessData σ);
                    motorData := motorData σ |} !! l
               = Some (DynamixelAccessData.construct addressLSB addressMSB size))
    by (simpl; apply lookup_insert_eq).
  pose proof (run_accessData _ _ _ _ _ Hrun H1) as H2.
  split; [exact H1|].
  split; [simpl; rewrite !to_uchar_byte by assumption; reflexivity|].
  split; [simpl; apply to_uchar_byte; assumption|].
  split; [exact H2|]. intros f. rewrite H1, H2. reflexivity.
Qed.

(** C7. [motorID] is the only member of a [DynamixelMotorData] that is not
    fixed by its declaration.  Over any program the eight descriptor
    references and the three conversion factors of an object keep their
    values, the descriptors they refer to stay as they are, and [motorID]
    differs in the end only when the program assigns to the [motorID] of
    this object. *)
Theorem motorID_is_the_only_mutable_state
    (prog : list statement) (σ σ' : memory) (l : loc) (m : DynamixelMotorData.t) :
  motorData σ !! l = Some m ->
  run prog σ = Some σ' ->
  (∀ f, DynamixelMotorData.declared_const f = false <-> f = DynamixelMotorData.m_motorID)
  ∧ ∃ m' : DynamixelMotorData.t,
      motorData σ' !! l = Some m'
      ∧ (∀ f, f ≠ DynamixelMotorData.m_motorID ->
              DynamixelMotorData.get f m' = DynamixelMotorData.get f m)
      ∧ (∀ (r : loc) (d : DynamixelAccessData.t),
           In r (DynamixelMotorData.descriptors m) ->
           accessData σ !! r = Some d -> accessData σ' !! r = Some d)
      ∧ (DynamixelMotorData.motorID m' ≠ DynamixelMotorData.motorID m ->
         ∃ n : Z, In (AssignMotorData l DynamixelMotorData.m_motorID (VInt n)) prog).
Proof.
  intros Hm Hrun. split.
  - intros f. destruct f; simpl; split; congruence.
  - destruct (run_motorData _ _ _ _ _ Hrun Hm) as (m' & Hm' & Hget & Hid).
    exists m'. split; [exact Hm'|]. split; [exact Hget|]. split; [|exact Hid].
    intros r d _ Hd. exact (run_accessData _ _ _ _ _ Hrun Hd).
Qed.

Lemma DynamixelAccessData_fixed_after_construction_witness :
  ∃ (σ1 σ2 : memory) (d : DynamixelAccessData.t),
    exec (NewAccessData 1 0x1E 0x00 2) (Memory ∅ ∅) = Some σ1
    ∧ run example_program σ1 = Some σ2
    ∧ accessData σ1 !! 1 = Some d
    ∧ DynamixelAccessData.address d = [0x1E; 0x00]
    ∧ DynamixelAccessData.length d = 2
    ∧ accessData σ2 !! 1 = Some d
    ∧ ∀ f, DynamixelAccessData.get f <$> accessData σ2 !! 1
           = DynamixelAccessData.get f <$> accessData σ1 !! 1.
Proof.
  assert (H1 : exec (NewAccessData 1 0x1E 0x00 2) (Memory ∅ ∅) = Some example_memory)
    by reflexivity.
  assert (H2 : run example_program example_memory = Some example_memory_end)
    by reflexivity.
  destruct (DynamixelAccessData_fixed_after_construction
              1 0x1E 0x00 2 example_program (Memory ∅ ∅)
              example_memory example_memory_end
              ltac:(lia) ltac:(lia) ltac:(lia) H1 H2) as [d Hd].
  exists example_memory, example_memory_end, d. auto.
Defined.

Lemma motorID_is_the_only_mutable_state_witness :
  (∀ f, DynamixelMotorData.declared_const f = false <-> f = DynamixelMotorData.m_motorID)
  ∧ ∃ m' : DynamixelMotorData.t,
      motorData example_memory_end !! 2 = Some m'
      ∧ (∀ f, f ≠ DynamixelMotorData.m_motorID ->
              DynamixelMotorData.get f m' = DynamixelMotorData.get f example_motor)
      ∧ (∀ (r : loc) (d : DynamixelAccessData.t),
           In r (DynamixelMotorData.descriptors example_motor) ->
           accessData example_memory_motor !! r = Some d ->
           accessData example_memory_end !! r = Some d)
      ∧ (DynamixelMotorData.motorID m' ≠ DynamixelMotorData.motorID example_motor ->
         ∃ n : Z, In (AssignMotorData 2 DynamixelMotorData.m_motorID (VInt n))
                    [AssignMotorData 2 DynamixelMotorData.m_motorID (VInt 7)]).
Proof.
  apply (motorID_is_the_only_mutable_state
           [AssignMotorData 2 DynamixelMotorData.m_motorID (VInt 7)]
           example_memory_motor example_memory_end 2 example_motor);
    reflexivity.
Defined.

(** ** The structure of one round of the CRC *)

Lemma lxor_mod_pow2 (a b n : Z) :
  0 <= n -> Z.lxor a b mod 2 ^ n = Z.lxor (a mod 2 ^ n) (b mod 2 ^ n).
Proof.
  intros Hn. apply Z.bits_inj'. intros k Hk.
  destruct (Z_lt_dec k n) as [Hlt|Hge].
  - rewrite Z.lxor_spec, !Z.mod_pow2_bits_low, Z.lxor_spec by lia. reflexivity.
  - rewrite Z.lxor_spec, !Z.mod_pow2_bits_high by lia. reflexivity.
Qed.

Lemma lxor_cancel_l (a b c : Z) : Z.lxor a b = Z.lxor a c -> b = c.
Proof.
  intros H. apply Z.lxor_eq.
  replace (Z.lxor b c) with (Z.lxor (Z.lxor a b) (Z.lxor a c)).
  - rewrite H. apply Z.lxor_nilpotent.
  - rewrite Z.lxor_assoc, <- (Z.lxor_assoc b a c), (Z.lxor_comm b a), Z.lxor_assoc.
    rewrite <- Z.lxor_assoc, Z.lxor_nilpotent. apply Z.lxor_0_l.
Qed.

Lemma byte_val_inj (x y : byte) : byte_val x = byte_val y -> x = y.
Proof.
  unfold byte_val. intros H.
  assert (Hn : Byte.to_N x = Byte.to_N y) by lia.
  apply (f_equal Byte.of_N) in Hn. rewrite !Byte.of_to_N in Hn. congruence.
Qed.

Lemma crc_table_entry_range (i : nat) : 0 <= nth i crc_table 0 < 2 ^ 16.
Proof.
  assert (Hall : forallb (λ t, (0 <=? t) && (t <? 2 ^ 16)) crc_table = true)
    by (vm_compute; reflexivity).
  rewrite forallb_forall in Hall.
  destruct (Nat.lt_ge_cases i (length crc_table)) as [Hi|Hi].
  - specialize (Hall _ (nth_In crc_table 0 Hi)). lia.
  - rewrite nth_overflow by exact Hi. lia.
Qed.

(** The low bytes of the 256 entries are pairwise different. *)
Lemma crc_table_low_byte_inj (i j : Z) :
  0 <= i < 256 -> 0 <= j < 256 ->
  nth (Z.to_nat i) crc_table 0 mod 256 = nth (Z.to_nat j) crc_table 0 mod 256 ->
  i = j.
Proof.
  intros Hi Hj Heq.
  assert (Hnd : NoDup (map (λ t, t mod 256) crc_table)).
  { apply (bool_decide_unpack _). vm_compute. exact I. }
  assert (Hlen : length (map (λ t, t mod 256) crc_table) = 256%nat) by reflexivity.
  assert (Hnth : ∀ k : Z, 0 <= k < 256 ->
            map (λ t, t mod 256) crc_table !! Z.to_nat k
            = Some (nth (Z.to_nat k) crc_table 0 mod 256)).
  { intros k Hk. rewrite list_lookup_fmap.
    destruct (lookup_lt_is_Some_2 crc_table (Z.to_nat k)) as [t Ht];
      [rewrite crc_table_length; lia|].
    rewrite nth_lookup, Ht. reflexivity. }
  pose proof (NoDup_lookup _ (Z.to_nat i) (Z.to_nat j) _ Hnd (Hnth i Hi)) as Hinj.
  rewrite Heq in Hinj. specialize (Hinj (Hnth j Hj)). lia.
Qed.

(** A round on a 16-bit accumulator: the low byte of the accumulator moves
    to the high byte and the table entry is added bitwise. *)
Lemma crc_recurrence_step_split (acc : Z) (b : byte) :
  crc_recurrence_step acc b
  = Z.lxor ((acc mod 2 ^ 8) * 2 ^ 8)
           (nth (Z.to_nat (crc_round_index acc b)) crc_table 0).
Proof.
  unfold crc_recurrence_step. fold (crc_round_index acc b).
  pose proof (crc_table_entry_range (Z.to_nat (crc_round_index acc b))) as Ht.
  rewrite lxor_mod_pow2 by lia.
  rewrite (Z.mod_small (nth _ _ _)) by exact Ht.
  rewrite Z.shiftl_mul_pow2 by lia.
  change (2 ^ 16) with (2 ^ 8 * 2 ^ 8).
  rewrite Zmult_mod_distr_r. reflexivity.
Qed.

Lemma crc_recurrence_step_range (acc : Z) (b : byte) :
  0 <= crc_recurrence_step acc b < 2 ^ 16.
Proof. unfold crc_recurrence_step. apply Z.mod_pos_bound. lia. Qed.

Lemma crc_recurrence_step_low (acc : Z) (b : byte) :
  crc_recurrence_step acc b mod 2 ^ 8
  = nth (Z.to_nat (crc_round_index acc b)) crc_table 0 mod 2 ^ 8.
Proof.
  rewrite crc_recurrence_step_split, lxor_mod_pow2 by lia.
  rewrite Z.mod_mul by lia. apply Z.lxor_0_l.
Qed.

Lemma crc_recurrence_step_high (acc : Z) (b : byte) :
  Z.shiftr (crc_recurrence_step acc b) 8
  = Z.lxor (acc mod 2 ^ 8)
           (Z.shiftr (nth (Z.to_nat (crc_round_index acc b)) crc_table 0) 8).
Proof.
  rewrite crc_recurrence_step_split, Z.shiftr_lxor. f_equal.
  rewrite Z.shiftr_div_pow2 by lia. apply Z.div_mul. lia.
Qed.

Lemma crc_round_index_range (acc : Z) (b : byte) : 0 <= crc_round_index acc b < 256.
Proof. unfold crc_round_index. rewrite land_0xFF. apply Z.mod_pos_bound. lia. Qed.

Lemma crc_round_index_eq (acc : Z) (b : byte) :
  0 <= acc < 2 ^ 16 ->
  crc_round_index acc b = Z.lxor (Z.shiftr acc 8) (byte_val b).
Proof.
  intros Hacc. unfold crc_round_index. rewrite land_0xFF.
  change 256 with (2 ^ 8). rewrite lxor_mod_pow2 by lia.
  pose proof (byte_val_range b).
  rewrite Z.shiftr_div_pow2 by lia.
  rewrite !Z.mod_small; [reflexivity | change (2 ^ 8) with 256; lia |].
  change (2 ^ 16) with (2 ^ 8 * 2 ^ 8) in Hacc.
  split; [apply Z.div_pos; lia | apply Z.div_lt_upper_bound; lia].
Qed.

(** A round is injective in the byte it reads. *)
Lemma crc_recurrence_step_inj_byte (acc : Z) (x y : byte) :
  0 <= acc < 2 ^ 16 ->
  crc_recurrence_step acc x = crc_recurrence_step acc y -> x = y.
Proof.
  intros Hacc Heq.
  assert (Hlow := f_equal (λ v, v mod 2 ^ 8) Heq). simpl in Hlow.
  rewrite !crc_recurrence_step_low in Hlow.
  apply crc_table_low_byte_inj in Hlow; try apply crc_round_index_range.
  rewrite !crc_round_index_eq in Hlow by exact Hacc.
  apply lxor_cancel_l in Hlow.
  apply byte_val_inj. exact Hlow.
Qed.

(** A round is injective in the accumulator it starts from. *)
Lemma crc_recurrence_step_inj_acc (acc acc' : Z) (b : byte) :
  0 <= acc < 2 ^ 16 -> 0 <= acc' < 2 ^ 16 ->
  crc_recurrence_step acc b = crc_recurrence_step acc' b -> acc = acc'.
Proof.
  intros Hacc Hacc' Heq.
  assert (Hlow := f_equal (λ v, v mod 2 ^ 8) Heq). simpl in Hlow.
  rewrite !crc_recurrence_step_low in Hlow.
  apply crc_table_low_byte_inj in Hlow; try apply crc_round_index_range.
  assert (Hhigh := f_equal (λ v, Z.shiftr v 8) Heq). simpl in Hhigh.
  rewrite !crc_recurrence_step_high, Hlow in Hhigh.
  rewrite (Z.lxor_comm (acc mod 2 ^ 8)), (Z.lxor_comm (acc' mod 2 ^ 8)) in Hhigh.
  apply lxor_cancel_l in Hhigh.
  rewrite !crc_round_index_eq in Hlow by assumption.
  rewrite (Z.lxor_comm (Z.shiftr acc 8)), (Z.lxor_comm (Z.shiftr acc' 8)) in Hlow.
  apply lxor_cancel_l in Hlow.
  rewrite !Z.shiftr_div_pow2 in Hlow by lia.
  rewrite (Z.div_mod acc (2 ^ 8)), (Z.div_mod acc' (2 ^ 8)) by lia. congruence.
Qed.

(** ** What the CRC detects and what it lets through *)

Lemma crc_recurrence_fold_range (s : list byte) (acc : Z) :
  0 <= acc < 2 ^ 16 -> 0 <= fold_left crc_recurrence_step s acc < 2 ^ 16.
Proof.
  revert acc. induction s as [|b s IH]; intros acc Hacc; simpl; [exact Hacc|].
  apply IH, crc_recurrence_step_range.
Qed.

Lemma crc_recurrence_fold_inj (s : list byte) (acc acc' : Z) :
  0 <= acc < 2 ^ 16 -> 0 <= acc' < 2 ^ 16 ->
  fold_left crc_recurrence_step s acc = fold_left crc_recurrence_step s acc' ->
  acc = acc'.
Proof.
  revert acc acc'. induction s as [|b s IH]; intros acc acc' Hacc Hacc' Heq; simpl in Heq;
    [exact Heq|].
  apply IH in Heq; try apply crc_recurrence_step_range.
  exact (crc_recurrence_step_inj_acc _ _ _ Hacc Hacc' Heq).
Qed.

Lemma crc_compute_whole (s : list byte) :
  Z.of_nat (length s) <= USHRT_MAX ->
  crc_compute s (Z.of_nat (length s)) = Some (crc_recurrence s).
Proof.
  intros Hlen. rewrite crc_compute_take by lia. rewrite firstn_all. reflexivity.
Qed.

(** X1. Two buffers of the same length that differ in one byte, wherever it
    is, never have the same CRC. *)
Theorem crc_compute_detects_one_byte_change (p q : list byte) (x y : byte) :
  x ≠ y ->
  Z.of_nat (length (p ++ x :: q)) <= USHRT_MAX ->
  ∃ c c' : Z,
    crc_compute (p ++ x :: q) (Z.of_nat (length (p ++ x :: q))) = Some c
    ∧ crc_compute (p ++ y :: q) (Z.of_nat (length (p ++ y :: q))) = Some c'
    ∧ c ≠ c'.
Proof.
  intros Hxy Hlen.
  assert (Hlen' : length (p ++ y :: q) = length (p ++ x :: q))
    by (rewrite !length_app; reflexivity).
  exists (crc_recurrence (p ++ x :: q)), (crc_recurrence (p ++ y :: q)).
  split; [apply crc_compute_whole; exact Hlen|].
  split; [apply crc_compute_whole; rewrite Hlen'; exact Hlen|].
  unfold crc_recurrence. rewrite !fold_left_app. simpl. intros Heq.
  assert (Hp : 0 <= fold_left crc_recurrence_step p 0 < 2 ^ 16)
    by (apply crc_recurrence_fold_range; lia).
  apply crc_recurrence_fold_inj in Heq; try apply crc_recurrence_step_range.
  apply crc_recurrence_step_inj_byte in Heq; [contradiction | exact Hp].
Qed.

Lemma crc_compute_detects_one_byte_change_witness :
  ∃ c c' : Z,
    crc_compute ([xff; xff; xfd] ++ x00 :: [x01; x03])
      (Z.of_nat (length ([xff; xff; xfd] ++ x00 :: [x01; x03]))) = Some c
    ∧ crc_compute ([xff; xff; xfd] ++ x80 :: [x01; x03])
        (Z.of_nat (length ([xff; xff; xfd] ++ x80 :: [x01; x03]))) = Some c'
    ∧ c ≠ c'.
Proof.
  apply crc_compute_detects_one_byte_change; [discriminate | vm_compute; discriminate].
Defined.

Lemma crc_compute_range (buffer : list byte) (n : Z) :
  0 <= n <= USHRT_MAX ->
  n <= Z.of_nat (length buffer) ->
  crc_compute buffer n = Some (crc_recurrence (take (Z.to_nat n) buffer)).
Proof.
  intros Hn Hlen. rewrite <- (Z2Nat.id n) at 1 by lia.
  apply crc_compute_take; lia.
Qed.

Lemma crc_recurrence_step_zero : crc_recurrence_step 0 x00 = 0.
Proof. reflexivity. Qed.

Lemma crc_recurrence_leading_zeros (k : nat) (s : list byte) :
  crc_recurrence (replicate k x00 ++ s) = crc_recurrence s.
Proof.
  unfold crc_recurrence. rewrite fold_left_app. f_equal.
  induction k as [|k IH]; simpl; [reflexivity|].
  rewrite crc_recurrence_step_zero. exact IH.
Qed.

(** X2. Zero bytes in front of the data do not show in the CRC: the CRC of
    [k] zero bytes followed by the first [n] bytes of a buffer is the CRC of
    these [n] bytes, and the CRC of zero bytes alone is 0. *)
Theorem crc_compute_ignores_leading_zeros (k : nat) (s : list byte) (n : Z) :
  0 <= n ->
  n <= Z.of_nat (length s) ->
  Z.of_nat k + n <= USHRT_MAX ->
  crc_compute (replicate k x00 ++ s) (Z.of_nat k + n) = crc_compute s n
  ∧ crc_compute (replicate k x00) (Z.of_nat k) = Some 0.
Proof.
  intros Hn Hlen Hmax. split.
  - rewrite (crc_compute_range (replicate k x00 ++ s)), (crc_compute_range s); try lia.
    + f_equal. replace (Z.to_nat (Z.of_nat k + n)) with (k + Z.to_nat n)%nat by lia.
      rewrite take_app_add'; [apply crc_recurrence_leading_zeros | symmetry; apply length_replicate].
    + rewrite length_app, length_replicate. lia.
  - rewrite <- (length_replicate k x00) at 2.
    rewrite crc_compute_whole by (rewrite length_replicate; lia).
    rewrite <- (app_nil_r (replicate k x00)), crc_recurrence_leading_zeros. reflexivity.
Qed.

Lemma crc_compute_ignores_leading_zeros_witness :
  crc_compute (replicate 3 x00 ++ [xff; xfd; x01]) (Z.of_nat 3 + 2)
  = crc_compute [xff; xfd; x01] 2
  ∧ crc_compute (replicate 3 x00) (Z.of_nat 3) = Some 0.
Proof.
  apply crc_compute_ignores_leading_zeros; [lia | simpl; lia | vm_compute; discriminate].
Defined.

(** X3. The data followed by its CRC, high byte first, has the CRC 0. *)
Theorem crc_compute_residue_is_zero (s : list byte) (c : Z) (hi lo : byte) :
  Z.of_nat (length s) + 2 <= USHRT_MAX ->
  crc_compute s (Z.of_nat (length s)) = Some c ->
  byte_val hi = Z.shiftr c 8 ->
  byte_val lo = Z.land c 0xFF ->
  crc_compute (s ++ [hi; lo]) (Z.of_nat (length s) + 2) = Some 0.
Proof.
  intros Hmax Hc Hhi Hlo.
  rewrite crc_compute_whole in Hc by lia. injection Hc as <-.
  replace (Z.of_nat (length s) + 2) with (Z.of_nat (length (s ++ [hi; lo])))
    by (rewrite length_app; simpl; lia).
  rewrite crc_compute_whole by (rewrite length_app; simpl; lia).
  f_equal. unfold crc_recurrence in *. rewrite fold_left_app. simpl.
  set (c := fold_left crc_recurrence_step s 0) in *.
  assert (Hrange : 0 <= c < 2 ^ 16) by (apply crc_recurrence_fold_range; lia).
  assert (H1 : crc_recurrence_step c hi = (c mod 2 ^ 8) * 2 ^ 8).
  { rewrite crc_recurrence_step_split, crc_round_index_eq by exact Hrange.
    rewrite Hhi, Z.lxor_nilpotent. simpl. apply Z.lxor_0_r. }
  rewrite H1.
  assert (Hlow : 0 <= c mod 2 ^ 8 < 2 ^ 8) by (apply Z.mod_pos_bound; lia).
  rewrite crc_recurrence_step_split, crc_round_index_eq
    by (change (2 ^ 16) with (2 ^ 8 * 2 ^ 8); nia).
  rewrite Z.shiftr_div_pow2, Z.div_mul, Z.mod_mul by lia.
  rewrite Hlo, land_0xFF. change 256 with (2 ^ 8). rewrite Z.lxor_nilpotent.
  reflexivity.
Qed.

Lemma crc_compute_residue_is_zero_witness :
  crc_compute ([xff; xff; xfd; x00; x01; x03; x00; x01] ++ [x4e; x19])
    (Z.of_nat (length [xff; xff; xfd; x00; x01; x03; x00; x01]) + 2) = Some 0.
Proof.
  apply (crc_compute_residue_is_zero _ 0x4E19);
    [vm_compute; discriminate | reflexivity | reflexivity | reflexivity].
Defined.

(** X4. Neither function looks beyond [packet_size]: what follows the first
    [n] bytes of the buffer does not change the result. *)
Theorem checksums_read_only_the_range (int_bits : Z) (s t : list byte) :
  16 <= int_bits ->
  Z.of_nat (length s) <= USHRT_MAX ->
  Z.of_nat (length s) <= INT_MAX int_bits ->
  crc_compute (s ++ t) (Z.of_nat (length s)) = crc_compute s (Z.of_nat (length s))
  ∧ v1Checksum int_bits (s ++ t) (Z.of_nat (length s))
    = v1Checksum int_bits s (Z.of_nat (length s)).
Proof.
  intros Hw Hushort Hmax. split.
  - rewrite !crc_compute_take by (rewrite ?length_app; lia).
    rewrite take_app_length, firstn_all. reflexivity.
  - rewrite !v1Checksum_take by (rewrite ?length_app; lia).
    rewrite take_app_length, firstn_all. reflexivity.
Qed.

Lemma checksums_read_only_the_range_witness :
  crc_compute ([xff; xfd; x01] ++ [x07; x09]) (Z.of_nat (length [xff; xfd; x01]))
  = crc_compute [xff; xfd; x01] (Z.of_nat (length [xff; xfd; x01]))
  ∧ v1Checksum 16 ([xff; xfd; x01] ++ [x07; x09]) (Z.of_nat (length [xff; xfd; x01]))
    = v1Checksum 16 [xff; xfd; x01] (Z.of_nat (length [xff; xfd; x01])).
Proof.
  apply checksums_read_only_the_range; [lia | vm_compute; discriminate | vm_compute; discriminate].
Defined.

(** ** The CRC is linear over the exclusive or *)

Lemma lxor_range (a b n : Z) :
  0 <= n -> 0 <= a < 2 ^ n -> 0 <= b < 2 ^ n -> 0 <= Z.lxor a b < 2 ^ n.
Proof.
  intros Hn Ha Hb.
  rewrite <- (Z.mod_small a (2 ^ n)), <- (Z.mod_small b (2 ^ n)) by lia.
  rewrite <- lxor_mod_pow2 by lia. apply Z.mod_pos_bound. lia.
Qed.

Lemma lxor_swap4 (p q r s : Z) :
  Z.lxor (Z.lxor p q) (Z.lxor r s) = Z.lxor (Z.lxor p r) (Z.lxor q s).
Proof.
  apply Z.bits_inj'. intros k _. rewrite !Z.lxor_spec.
  destruct (Z.testbit p k), (Z.testbit q k), (Z.testbit r k), (Z.testbit s k); reflexivity.
Qed.

Lemma byte_val_xor (x y : byte) :
  byte_val (byte_xor x y) = Z.lxor (byte_val x) (byte_val y).
Proof.
  unfold byte_xor, byte_val.
  pose proof (byte_val_range x) as Hx. pose proof (byte_val_range y) as Hy.
  unfold byte_val in Hx, Hy.
  pose proof (lxor_range (Z.of_N (Byte.to_N x)) (Z.of_N (Byte.to_N y)) 8
                ltac:(lia) ltac:(change (2 ^ 8) with 256; lia)
                ltac:(change (2 ^ 8) with 256; lia)) as Hr.
  change (2 ^ 8) with 256 in Hr. rewrite <- N2Z.inj_lxor in Hr |- *.
  destruct (Byte.of_N (N.lxor (Byte.to_N x) (Byte.to_N y))) as [b|] eqn:Hb; simpl.
  - apply Byte.to_of_N in Hb. rewrite Hb. reflexivity.
  - apply Byte.of_N_None_iff in Hb. lia.
Qed.

Lemma crc_table_linear (i j : Z) :
  0 <= i < 256 -> 0 <= j < 256 ->
  nth (Z.to_nat (Z.lxor i j)) crc_table 0
  = Z.lxor (nth (Z.to_nat i) crc_table 0) (nth (Z.to_nat j) crc_table 0).
Proof.
  intros Hi Hj.
  assert (Hall : forallb (λ a, forallb (λ b,
                    nth (Z.to_nat (Z.lxor (Z.of_nat a) (Z.of_nat b))) crc_table 0
                    =? Z.lxor (nth a crc_table 0) (nth b crc_table 0))
                    (seq 0 256)) (seq 0 256) = true)
    by (vm_compute; reflexivity).
  rewrite forallb_forall in Hall.
  specialize (Hall (Z.to_nat i) ltac:(apply in_seq; lia)).
  rewrite forallb_forall in Hall.
  specialize (Hall (Z.to_nat j) ltac:(apply in_seq; lia)).
  rewrite !Z2Nat.id in Hall by lia. apply Z.eqb_eq. exact Hall.
Qed.

Lemma crc_recurrence_step_linear (a a' : Z) (b b' : byte) :
  0 <= a < 2 ^ 16 -> 0 <= a' < 2 ^ 16 ->
  crc_recurrence_step (Z.lxor a a') (byte_xor b b')
  = Z.lxor (crc_recurrence_step a b) (crc_recurrence_step a' b').
Proof.
  intros Ha Ha'.
  pose proof (lxor_range a a' 16 ltac:(lia) Ha Ha') as Hx.
  rewrite !crc_recurrence_step_split, !crc_round_index_eq by assumption.
  rewrite byte_val_xor, Z.shiftr_lxor, lxor_swap4.
  rewrite crc_table_linear
    by (rewrite <- crc_round_index_eq by assumption; apply crc_round_index_range).
  rewrite lxor_mod_pow2 by lia.
  rewrite <- !Z.shiftl_mul_pow2, Z.shiftl_lxor by lia.
  apply lxor_swap4.
Qed.

Lemma crc_recurrence_fold_linear (s s' : list byte) (a a' : Z) :
  length s = length s' ->
  0 <= a < 2 ^ 16 -> 0 <= a' < 2 ^ 16 ->
  fold_left crc_recurrence_step (zip_with byte_xor s s') (Z.lxor a a')
  = Z.lxor (fold_left crc_recurrence_step s a) (fold_left crc_recurrence_step s' a').
Proof.
  revert s' a a'. induction s as [|b s IH]; intros [|b' s'] a a' Hlen Ha Ha';
    try discriminate; simpl; [reflexivity|].
  rewrite crc_recurrence_step_linear by assumption.
  apply IH; [simpl in Hlen; lia | apply crc_recurrence_step_range ..].
Qed.

(** X5. The CRC of the bytewise exclusive or of two buffers of the same
    length is the exclusive or of their CRCs: whether a corruption shows in
    the CRC depends on the flipped bits only, not on the data. *)
Theorem crc_compute_is_linear (s s' : list byte) :
  length s = length s' ->
  Z.of_nat (length s) <= USHRT_MAX ->
  ∃ c c' : Z,
    crc_compute s (Z.of_nat (length s)) = Some c
    ∧ crc_compute s' (Z.of_nat (length s')) = Some c'
    ∧ crc_compute (zip_with byte_xor s s') (Z.of_nat (length s)) = Some (Z.lxor c c').
Proof.
  intros Hlen Hmax.
  exists (crc_recurrence s), (crc_recurrence s').
  split; [apply crc_compute_whole; exact Hmax|].
  split; [apply crc_compute_whole; rewrite <- Hlen; exact Hmax|].
  assert (Hzip : length (zip_with byte_xor s s') = length s)
    by (rewrite length_zip_with; lia).
  rewrite <- Hzip at 1. rewrite crc_compute_whole by (rewrite Hzip; exact Hmax).
  f_equal. unfold crc_recurrence.
  change 0 with (Z.lxor 0 0) at 1.
  apply crc_recurrence_fold_linear; [exact Hlen | lia | lia].
Qed.

Lemma crc_compute_is_linear_witness :
  ∃ c c' : Z,
    crc_compute [xff; xfd; x01] (Z.of_nat (length [xff; xfd; x01])) = Some c
    ∧ crc_compute [x00; x80; x03] (Z.of_nat (length [x00; x80; x03])) = Some c'
    ∧ crc_compute (zip_with byte_xor [xff; xfd; x01] [x00; x80; x03])
        (Z.of_nat (length [xff; xfd; x01])) = Some (Z.lxor c c').
Proof.
  apply crc_compute_is_linear; [reflexivity | vm_compute; discriminate].
Defined.

(** ** What the checksum of protocol 1 detects and what it lets through *)

Lemma byte_sum_Permutation (s s' : list byte) :
  Permutation s s' -> byte_sum s = byte_sum s'.
Proof.
  induction 1 as [|b s s' _ IH|a b s|s s' s'' _ IH1 _ IH2]; simpl; lia.
Qed.

(** X6. The receiver's check: a frame followed by one more byte has the
    checksum 0 exactly when this byte is the checksum of the frame. *)
Theorem v1Checksum_accepts_exactly_the_checksum
    (int_bits : Z) (s : list byte) (c : byte) :
  16 <= int_bits ->
  Z.of_nat (length s) + 1 <= USHRT_MAX ->
  Z.of_nat (length s) + 1 <= INT_MAX int_bits ->
  v1Checksum int_bits (s ++ [c]) (Z.of_nat (length s) + 1) = Some 0
  <-> v1Checksum int_bits s (Z.of_nat (length s)) = Some (byte_val c).
Proof.
  intros Hw Hushort Hmax.
  replace (Z.of_nat (length s) + 1) with (Z.of_nat (length (s ++ [c])))
    by (rewrite length_app; simpl; lia).
  rewrite !v1Checksum_whole by (rewrite ?length_app; simpl; lia).
  rewrite !ones_complement_byte_eq, byte_sum_app. simpl.
  pose proof (byte_val_range c) as Hc.
  pose proof (Z.div_mod (byte_sum s) 256 ltac:(lia)) as Hs.
  pose proof (Z.mod_pos_bound (byte_sum s) 256 ltac:(lia)) as Hsr.
  set (q := byte_sum s / 256) in *. set (r := byte_sum s mod 256) in *.
  replace (byte_sum s + (byte_val c + 0)) with (r + byte_val c + q * 256) by lia.
  rewrite Z.mod_add by lia.
  split; intros [= H]; f_equal.
  - destruct (Z_lt_dec (r + byte_val c) 256) as [Hlt|Hge].
    + rewrite Z.mod_small in H by lia. lia.
    + replace (r + byte_val c) with (r + byte_val c - 256 + 1 * 256) in H by lia.
      rewrite Z.mod_add, Z.mod_small in H by lia. lia.
  - rewrite <- H. replace (r + (255 - r)) with 255 by lia. reflexivity.
Qed.

Lemma v1Checksum_accepts_exactly_the_checksum_witness :
  v1Checksum 16 ([x01; x02; x01] ++ [xfb]) (Z.of_nat (length [x01; x02; x01]) + 1)
  = Some 0
  <-> v1Checksum 16 [x01; x02; x01] (Z.of_nat (length [x01; x02; x01]))
      = Some (byte_val xfb).
Proof.
  apply v1Checksum_accepts_exactly_the_checksum;
    [lia | vm_compute; discriminate | vm_compute; discriminate].
Defined.

(** X7. The checksum does not see the order of the bytes: a frame and any
    rearrangement of its bytes have the same checksum. *)
Theorem v1Checksum_ignores_the_order (int_bits : Z) (s s' : list byte) :
  16 <= int_bits ->
  Z.of_nat (length s) <= USHRT_MAX ->
  Z.of_nat (length s) <= INT_MAX int_bits ->
  Permutation s s' ->
  v1Checksum int_bits s (Z.of_nat (length s))
  = v1Checksum int_bits s' (Z.of_nat (length s')).
Proof.
  intros Hw Hushort Hmax Hperm.
  pose proof (Permutation_length Hperm) as Hlen.
  rewrite !v1Checksum_whole by (rewrite <- ?Hlen; assumption).
  rewrite (byte_sum_Permutation _ _ Hperm). reflexivity.
Qed.

Lemma v1Checksum_ignores_the_order_witness :
  v1Checksum 16 [x01; x02; x03] (Z.of_nat (length [x01; x02; x03]))
  = v1Checksum 16 [x02; x01; x03] (Z.of_nat (length [x02; x01; x03])).
Proof.
  apply v1Checksum_ignores_the_order;
    [lia | vm_compute; discriminate | vm_compute; discriminate |].
  apply perm_swap.
Defined.

(** X8. Two frames of the same length that differ in one byte never have the
    same checksum. *)
Theorem v1Checksum_detects_one_byte_change
    (int_bits : Z) (p q : list byte) (x y : byte) :
  16 <= int_bits ->
  Z.of_nat (length (p ++ x :: q)) <= USHRT_MAX ->
  Z.of_nat (length (p ++ x :: q)) <= INT_MAX int_bits ->
  x ≠ y ->
  ∃ c c' : Z,
    v1Checksum int_bits (p ++ x :: q) (Z.of_nat (length (p ++ x :: q))) = Some c
    ∧ v1Checksum int_bits (p ++ y :: q) (Z.of_nat (length (p ++ y :: q))) = Some c'
    ∧ c ≠ c'.
Proof.
  intros Hw Hushort Hmax Hxy.
  assert (Hlen : length (p ++ y :: q) = length (p ++ x :: q))
    by (rewrite !length_app; reflexivity).
  exists (ones_complement_byte (byte_sum (p ++ x :: q))),
         (ones_complement_byte (byte_sum (p ++ y :: q))).
  split; [apply v1Checksum_whole; assumption|].
  split; [apply v1Checksum_whole; rewrite ?Hlen; assumption|].
  rewrite !ones_complement_byte_eq, !byte_sum_app. simpl. intros Heq.
  apply Hxy, byte_val_inj.
  pose proof (byte_val_range x) as Hx. pose proof (byte_val_range y) as Hy.
  set (rest := byte_sum p + byte_sum q).
  assert (Hmod : (byte_val x + rest) mod 256 = (byte_val y + rest) mod 256).
  { replace (byte_val x + rest) with (byte_sum p + (byte_val x + byte_sum q))
      by (unfold rest; lia).
    replace (byte_val y + rest) with (byte_sum p + (byte_val y + byte_sum q))
      by (unfold rest; lia).
    lia. }
  pose proof (Z.div_mod (byte_val x + rest) 256 ltac:(lia)) as H1.
  pose proof (Z.div_mod (byte_val y + rest) 256 ltac:(lia)) as H2.
  rewrite Hmod in H1. lia.
Qed.

Lemma v1Checksum_detects_one_byte_change_witness :
  ∃ c c' : Z,
    v1Checksum 16 ([x01] ++ x02 :: [x01]) (Z.of_nat (length ([x01] ++ x02 :: [x01])))
    = Some c
    ∧ v1Checksum 16 ([x01] ++ x03 :: [x01]) (Z.of_nat (length ([x01] ++ x03 :: [x01])))
      = Some c'
    ∧ c ≠ c'.
Proof.
  apply v1Checksum_detects_one_byte_change;
    [lia | vm_compute; discriminate | vm_compute; discriminate | discriminate].
Defined.

(** ** The life of a packet and of a motor identifier *)

(** X9. A packet built by either constructor on an array that [new[]] has
    just put into the free store gives the free store back as it was before
    the allocation when it is destroyed: the array is released and no other
    array is touched. *)
Theorem DynamixelPacket_destroy_restores_free_store
    (h : free_store) (p : loc) (buf : list byte) (length responseLength : Z)
    (a : DynamixelPacket.t) :
  p ≠ nullptr ->
  h !! p = None ->
  DynamixelPacket.construct p length = Constructed a
  ∨ DynamixelPacket.construct_response p length responseLength = Constructed a ->
  DynamixelPacket.destroy a (<[p := buf]> h) = Some h.
Proof.
  intros Hnull Hfresh [[= <-] | [= <-]];
    unfold DynamixelPacket.destroy, DynamixelPacket.delete_array; simpl;
    (destruct (decide (p = nullptr)); [contradiction|]);
    rewrite lookup_insert_eq, delete_insert_eq; f_equal;
    apply delete_id; exact Hfresh.
Qed.

Lemma DynamixelPacket_destroy_restores_free_store_witness :
  ∃ a : DynamixelPacket.t,
    DynamixelPacket.construct 16 12 = Constructed a
    ∧ DynamixelPacket.destroy a (<[16 := replicate 12 x00]> {[ 32 := [x01] ]})
      = Some {[ 32 := [x01] ]}.
Proof.
  eexists. split; [reflexivity|].
  apply (DynamixelPacket_destroy_restores_free_store _ 16 _ 12 0);
    [discriminate | reflexivity | left; reflexivity].
Defined.

Lemma run_app (p1 p2 : list statement) (σ : memory) :
  run (p1 ++ p2) σ = run p1 σ ≫= run p2.
Proof.
  revert σ. induction p1 as [|s p1 IH]; intros σ; simpl; [reflexivity|].
  destruct (exec s σ) as [σ1|]; simpl; [apply IH | reflexivity].
Qed.

(** X10. An assignment to the [motorID] of a motor that a program has
    constructed always runs: afterwards the motor holds the assigned
    identifier, and every other motor and every descriptor is as it was. *)
Theorem motorID_assignment_takes_effect
    (prog : list statement) (σ σ' : memory) (l : loc)
    (m : DynamixelMotorData.t) (n : Z) :
  0 <= n <= 255 ->
  motorData σ !! l = Some m ->
  run prog σ = Some σ' ->
  ∃ (σ'' : memory) (m'' : DynamixelMotorData.t),
    run (prog ++ [AssignMotorData l DynamixelMotorData.m_motorID (VInt n)]) σ = Some σ''
    ∧ motorData σ'' !! l = Some m''
    ∧ DynamixelMotorData.motorID m'' = n
    ∧ (∀ f, f ≠ DynamixelMotorData.m_motorID ->
            DynamixelMotorData.get f m'' = DynamixelMotorData.get f m)
    ∧ (∀ l' : loc, l' ≠ l -> motorData σ'' !! l' = motorData σ' !! l')
    ∧ accessData σ'' = accessData σ'.
Proof.
  intros Hn Hm Hrun.
  destruct (run_motorData _ _ _ _ _ Hrun Hm) as (m' & Hm' & Hget & _).
  exists {| accessData := accessData σ';
            motorData := <[l := DynamixelMotorData.set_motorID n m']> (motorData σ') |},
         (DynamixelMotorData.set_motorID n m').
  split; [|split; [|split; [|split; [|split]]]].
  - rewrite run_app, Hrun. simpl. rewrite Hm'. reflexivity.
  - simpl. apply lookup_insert_eq.
  - simpl. apply to_uchar_byte. exact Hn.
  - intros f Hf. rewrite set_motorID_get by exact Hf. apply Hget, Hf.
  - intros l' Hne. simpl. apply lookup_insert_ne. congruence.
  - reflexivity.
Qed.

Lemma motorID_assignment_takes_effect_witness :
  ∃ (σ'' : memory) (m'' : DynamixelMotorData.t),
    run ([AssignMotorData 2 DynamixelMotorData.m_motorID (VInt 7)]
         ++ [AssignMotorData 2 DynamixelMotorData.m_motorID (VInt 9)])
      example_memory_motor = Some σ''
    ∧ motorData σ'' !! 2 = Some m''
    ∧ DynamixelMotorData.motorID m'' = 9
    ∧ (∀ f, f ≠ DynamixelMotorData.m_motorID ->
            DynamixelMotorData.get f m'' = DynamixelMotorData.get f example_motor)
    ∧ (∀ l' : loc, l' ≠ 2 -> motorData σ'' !! l' = motorData example_memory_end !! l')
    ∧ accessData σ'' = accessData example_memory_end.
Proof.
  apply (motorID_assignment_takes_effect
           [AssignMotorData 2 DynamixelMotorData.m_motorID (VInt 7)]
           example_memory_motor example_memory_end 2 example_motor 9);
    [lia | reflexivity | reflexivity].
Defined.
